(** * ve-urpc: transfer queue, payload allocator, codec and progress loops

    A shallow embedding of [src/urpc_common.c], [src/vh_urpc.c] and of
    [ThreadContext::_progress_nolock] from [aveo/src/ThreadContext.cpp],
    together with the properties the specification states about them.

    Conventions.  Fixed-width C integers are integers in [Z] with the
    wrap-around written where the code can wrap ([u32], [u64], [s64]).
    Arrays of the shared segment are lists indexed by slot number; payload
    memory is a byte-addressed load/store map, multi-byte values being
    little-endian as on both processors.  The shared-memory peer is an
    explicit environment: wherever the C code polls memory that the other
    process writes, or reads the clock, the model takes what it observes
    as an argument. *)

From Stdlib Require Import ZArith List Lia Bool String Ascii.
From stdpp Require Import base tactics option list.
From coqutil Require Import Byte Word.LittleEndianList.
Import ListNotations.

Local Open Scope Z_scope.

(** ** Compile-time constants

    [urpc_common.h] is not part of the sources at hand; its constants are
    parameters of the development.  The only facts the proofs use are
    that there is at least one mailbox slot and that the data ring length
    is a [uint32_t] value. *)

Class urpc_config := {
  URPC_LEN_MB : nat;               (* number of mailbox slots, N *)
  URPC_DATA_BUFF_LEN : Z;          (* bytes in the payload ring, D *)
  URPC_ALLOC_TIMEOUT_US : Z;       (* allocation deadline *)
  URPC_LEN_MB_pos : (0 < URPC_LEN_MB)%nat;
  URPC_DATA_BUFF_LEN_range : 0 <= URPC_DATA_BUFF_LEN < 2 ^ 32
}.

(** Modelled from the spec: the constant [URPC_CMD_NONE] of
    [urpc_common.h] (section 3: "cmd = 0 means empty/done"). *)
Definition URPC_CMD_NONE : Z := 0.

(** ** Machine integers *)

Definition u8 (x : Z) : Z := x mod 2 ^ 8.
Definition u24 (x : Z) : Z := x mod 2 ^ 24.
Definition u32 (x : Z) : Z := x mod 2 ^ 32.
Definition u64 (x : Z) : Z := x mod 2 ^ 64.
(** Conversion of a 64-bit pattern to [long] / [int64_t]. *)
Definition s64 (x : Z) : Z := (x + 2 ^ 63) mod 2 ^ 64 - 2 ^ 63.

(** Modelled from the spec: the macro [ALIGN8B] of [urpc_common.h]
    (section 4.3: "round size up to 8 bytes"), as the usual mask
    expression; [ALIGN8B_bounds] shows it rounds up. *)
Definition ALIGN8B (x : Z) : Z := Z.land (x + 7) (Z.lnot 7).

(** ** Data model *)

(** Modelled from the spec: the union [urpc_mb_t] of [urpc_common.h]
    (section 3: "Mailbox slot (8 bytes, packed). cmd: u8, offs: u24, len:
    u32"): a 64-bit word viewed as three fields. *)
Record urpc_mb_t := mk_mb { mb_cmd : Z; mb_offs : Z; mb_len : Z }.

Definition mb_zero : urpc_mb_t := mk_mb 0 0 0.

(** The [.u64] view of the union. *)
Definition mb_u64 (m : urpc_mb_t) : Z :=
  mb_cmd m + 2 ^ 8 * mb_offs m + 2 ^ 32 * mb_len m.

(** Modelled from the spec: [mlist_t] of [urpc_common.h] (section 3:
    "a side-table mlist[N] that records each slot's (offs, len) at send
    time"). *)
Record mlist_t := mk_ml { ml_offs : Z; ml_len : Z }.

Definition ml_zero : mlist_t := mk_ml 0 0.

(** Modelled from the spec: [transfer_queue_t] of [urpc_common.h]
    (section 3: N mailbox slots, two flag words, two sequence counters);
    the data ring it ends with is the [memory] of the codec. *)
Record transfer_queue_t := mk_tq {
  sender_flags : Z;
  receiver_flags : Z;
  last_put_req : Z;
  last_get_req : Z;
  mb : list urpc_mb_t
}.

(** Modelled from the spec: [urpc_comm_t] of [urpc_common.h] (section 3:
    "payload allocator state (per direction)"): the queue, which the C
    structure holds by pointer, and the sender's [free_begin], [free_end]
    and [mlist]; both offsets are [uint32_t]. *)
Record urpc_comm_t := mk_comm {
  tq : transfer_queue_t;
  free_begin : Z;
  free_end : Z;
  mlist : list mlist_t
}.

Global Instance urpc_mb_t_inhabited : Inhabited urpc_mb_t := populate mb_zero.
Global Instance mlist_t_inhabited : Inhabited mlist_t := populate ml_zero.

Definition set_mb (q : transfer_queue_t) (slot : nat) (m : urpc_mb_t)
  : transfer_queue_t :=
  mk_tq (sender_flags q) (receiver_flags q) (last_put_req q) (last_get_req q)
        (<[slot := m]> (mb q)).

Definition set_last_put_req (q : transfer_queue_t) (r : Z) : transfer_queue_t :=
  mk_tq (sender_flags q) (receiver_flags q) r (last_get_req q) (mb q).

Definition set_last_get_req (q : transfer_queue_t) (r : Z) : transfer_queue_t :=
  mk_tq (sender_flags q) (receiver_flags q) (last_put_req q) r (mb q).

Definition set_tq (uc : urpc_comm_t) (q : transfer_queue_t) : urpc_comm_t :=
  mk_comm q (free_begin uc) (free_end uc) (mlist uc).

Definition set_mlist (uc : urpc_comm_t) (slot : nat) (e : mlist_t) : urpc_comm_t :=
  mk_comm (tq uc) (free_begin uc) (free_end uc) (<[slot := e]> (mlist uc)).

Definition set_free (uc : urpc_comm_t) (b e : Z) : urpc_comm_t :=
  mk_comm (tq uc) b e (mlist uc).

(** ** Codec (urpc_common.c)

    Payload memory is addressed by byte offset.  A load past the payload
    reads whatever follows it, which is what the C code does when it
    dereferences [pp] beyond [psz]. *)
Definition memory : Type := Z -> byte.

Definition load_bytes (mem : memory) (a : Z) (n : nat) : list byte :=
  map (fun i => mem (a + Z.of_nat i)) (seq 0 n).

Definition store_bytes (mem : memory) (a : Z) (bs : list byte) : memory :=
  fun x =>
    if decide (a <= x < a + Z.of_nat (length bs))
    then nth (Z.to_nat (x - a)) bs Byte.x00
    else mem x.

(** The 32-bit and 64-bit accesses through [pp], as load and as store. *)
Definition load32 (mem : memory) (a : Z) : Z := le_combine (load_bytes mem a 4).
Definition load64 (mem : memory) (a : Z) : Z := le_combine (load_bytes mem a 8).
Definition store32 (mem : memory) (a v : Z) : memory := store_bytes mem a (le_split 4 v).
Definition store64 (mem : memory) (a v : Z) : memory := store_bytes mem a (le_split 8 v).

(** The [switch] on the format character, the same in both functions. *)
Inductive field := FieldI | FieldL | FieldP | FieldX | Illegal.

Definition classify (c : ascii) : field :=
  if Ascii.eqb c "I" then FieldI
  else if Ascii.eqb c "L" then FieldL
  else if Ascii.eqb c "P" then FieldP
  else if Ascii.eqb c "x" then FieldX
  else Illegal.

(** The variadic arguments of [urpc_generic_send]: a 32-bit value, a
    64-bit value, or a buffer (the bytes at the pointer, their number being
    the [size_t] argument). *)
Inductive send_arg :=
| SendI (v : Z)
| SendL (v : Z)
| SendP (data : list byte).

(** First loop of [urpc_generic_send]: the payload size.  [None]: the
    arguments do not have the types the format asks for ([va_arg] is then
    undefined).  The sum is taken in [Z]; the [size_t] value is its [u64]. *)
Fixpoint pack_size (fmt : string) (args : list send_arg) : option Z :=
  match fmt with
  | EmptyString => Some 0
  | String c rest =>
      match classify c, args with
      | FieldI, SendI _ :: args' => Z.add 4 <$> pack_size rest args'
      | FieldL, SendL _ :: args' => Z.add 8 <$> pack_size rest args'
      | FieldP, SendP data :: args' =>
          Z.add (8 + Z.of_nat (length data)) <$> pack_size rest args'
      | FieldX, _ => Z.add 4 <$> pack_size rest args
      | Illegal, _ => pack_size rest args
      | _, _ => None
      end
  end.

(** Second loop: the fields are stored from [pp] on.  Padding bytes are
    skipped, not written. *)
Fixpoint pack_fields (fmt : string) (args : list send_arg) (mem : memory) (pp : Z)
  : option (memory * Z) :=
  match fmt with
  | EmptyString => Some (mem, pp)
  | String c rest =>
      match classify c, args with
      | FieldI, SendI v :: args' => pack_fields rest args' (store32 mem pp v) (pp + 4)
      | FieldL, SendL v :: args' => pack_fields rest args' (store64 mem pp v) (pp + 8)
      | FieldP, SendP data :: args' =>
          let dummys := Z.of_nat (length data) in
          let mem := store64 mem pp dummys in
          let pp := pp + 8 in
          let mem := if decide (dummys <> 0) then store_bytes mem pp data else mem in
          pack_fields rest args' mem (pp + dummys)
      | FieldX, _ => pack_fields rest args mem (pp + 4)
      | Illegal, _ => pack_fields rest args mem pp
      | _, _ => None
      end
  end.

(** What [urpc_unpack_payload] stores through its out-pointers: a 32-bit
    value, a 64-bit value, or for [P] the pointer (which points into the
    payload itself) and the length. *)
Inductive recv_val :=
| RecvI (v : Z)
| RecvL (v : Z)
| RecvP (ptr len : Z).

(** The loop of [urpc_unpack_payload]: runs while format characters remain
    and [lsz >= 0]; returns the values stored and the final [lsz].
    [lsz] is a [long]; subtracting the [size_t] length of a [P] field is
    done modulo 2^64 and read back as a [long]. *)
Fixpoint unpack_fields (fmt : string) (mem : memory) (pp lsz : Z)
  : list recv_val * Z :=
  match fmt with
  | EmptyString => ([], lsz)
  | String c rest =>
      if decide (lsz < 0) then ([], lsz)
      else
        match classify c with
        | FieldI =>
            let '(vs, l) := unpack_fields rest mem (pp + 4) (lsz - 4) in
            (RecvI (load32 mem pp) :: vs, l)
        | FieldL =>
            let '(vs, l) := unpack_fields rest mem (pp + 8) (lsz - 8) in
            (RecvL (load64 mem pp) :: vs, l)
        | FieldP =>
            let dummys := load64 mem pp in
            let '(vs, l) :=
              unpack_fields rest mem (pp + 8 + dummys) (s64 (lsz - 8 - dummys)) in
            (RecvP (pp + 8) dummys :: vs, l)
        | FieldX => unpack_fields rest mem (pp + 4) (lsz - 4)
        | Illegal => unpack_fields rest mem pp lsz
        end
  end.

(** [urpc_unpack_payload(payload, psz, fmt, ...)]: the return code and the
    values stored. *)
Definition urpc_unpack_payload (mem : memory) (payload psz : Z) (fmt : string)
  : Z * list recv_val :=
  let lsz := s64 psz in
  let '(vs, lsz) := unpack_fields fmt mem payload lsz in
  (if decide (lsz < 0) then -1 else 0, vs).

(** The bytes the format asks for, the lengths of [P] fields being read
    from the payload where the unpacking loop reads them. *)
Fixpoint bytes_required (fmt : string) (mem : memory) (pp : Z) : Z :=
  match fmt with
  | EmptyString => 0
  | String c rest =>
      match classify c with
      | FieldI => 4 + bytes_required rest mem (pp + 4)
      | FieldL => 8 + bytes_required rest mem (pp + 8)
      | FieldP =>
          let dummys := load64 mem pp in
          8 + dummys + bytes_required rest mem (pp + 8 + dummys)
      | FieldX => 4 + bytes_required rest mem (pp + 4)
      | Illegal => bytes_required rest mem pp
      end
  end.

(** Arguments of the types the format asks for, one per [I], [L] and [P],
    with values that fit their C types. *)
Fixpoint args_match (fmt : string) (args : list send_arg) : Prop :=
  match fmt with
  | EmptyString => args = []
  | String c rest =>
      match classify c, args with
      | FieldI, SendI v :: args' => 0 <= v < 2 ^ 32 /\ args_match rest args'
      | FieldL, SendL v :: args' => 0 <= v < 2 ^ 64 /\ args_match rest args'
      | FieldP, SendP _ :: args' => args_match rest args'
      | FieldX, _ => args_match rest args
      | Illegal, _ => args_match rest args
      | _, _ => False
      end
  end.

(** A value unpacked for an argument packed: equal for [I] and [L]; for
    [P] the length is that of the buffer sent, and the pointer designates,
    inside the payload [lo, hi), a copy of its bytes. *)
Definition unpacks_to (mem : memory) (lo hi : Z) (a : send_arg) (v : recv_val) : Prop :=
  match a, v with
  | SendI x, RecvI y => y = x
  | SendL x, RecvL y => y = x
  | SendP data, RecvP ptr len =>
      len = Z.of_nat (length data) /\
      lo <= ptr /\ ptr + len <= hi /\
      load_bytes mem ptr (length data) = data
  | _, _ => False
  end.

(** A buffer handed out by [urpc_unpack_payload] lies inside [lo, hi). *)
Definition within_payload (lo hi : Z) (v : recv_val) : Prop :=
  match v with
  | RecvP ptr len => lo <= ptr /\ 0 <= len /\ ptr + len <= hi
  | _ => True
  end.

Section Transport.
Context {cfg : urpc_config}.

(** Modelled from the spec: the macro [REQ2SLOT] of [urpc_common.h]
    (section 3: "the slot index is REQ2SLOT(req) = req mod N"). *)
Definition REQ2SLOT (req : Z) : nat := Z.to_nat (req mod Z.of_nat URPC_LEN_MB).

(** ** [vh_urpc_comm_init] (vh_urpc.c) *)

Definition comm_init_slot (uc : urpc_comm_t) (i : nat) : urpc_comm_t :=
  let uc := set_mlist uc i ml_zero in
  set_tq uc (set_mb (tq uc) i mb_zero).

Definition vh_urpc_comm_init (uc : urpc_comm_t) : urpc_comm_t :=
  let uc := fold_left comm_init_slot (seq 0 URPC_LEN_MB) uc in
  let q := tq uc in
  let q := mk_tq 0 (receiver_flags q) (last_put_req q) (last_get_req q) (mb q) in
  let q := mk_tq (sender_flags q) 0 (last_put_req q) (last_get_req q) (mb q) in
  let q := set_last_put_req q (-1) in
  let q := set_last_get_req q (-1) in
  mk_comm q 0 URPC_DATA_BUFF_LEN (mlist uc).

(** ** Transfer queue (urpc_common.c)

    The sequence counters are [int64_t]; [req + 1] is taken in [Z]
    (signed overflow is undefined in C, and a counter grows by one per
    completed call, see [counters_bounded_by_steps]). *)

(** [urpc_get_cmd(tq, &m)]: returns the request number or -1, the value
    left in [m], and the queue. *)
Definition urpc_get_cmd (q : transfer_queue_t) (m : urpc_mb_t)
  : Z * urpc_mb_t * transfer_queue_t :=
  let last_put := last_put_req q in
  let last_get := last_get_req q in
  if decide (last_put <> last_get) then
    let req := last_get + 1 in
    let slot := REQ2SLOT req in
    (req, mb q !!! slot, set_last_get_req q req)
  else (-1, m, q).

(** [urpc_get_req(tq, &m, req)]. *)
Definition urpc_get_req (q : transfer_queue_t) (m : urpc_mb_t) (req : Z)
  : Z * urpc_mb_t * transfer_queue_t :=
  let last_put := last_put_req q in
  let last_get := last_get_req q in
  if decide (last_get >= req) then (-1, m, q)
  else if decide (last_put >= req) then
    let slot := REQ2SLOT req in
    let m := mb q !!! slot in
    let q := if decide (last_get + 1 = req) then set_last_get_req q req else q in
    (req, m, q)
  else (-1, m, q).

(** [urpc_slot_done(tq, slot, &m)]: clears [m.c.cmd] and stores [m]. *)
Definition urpc_slot_done (q : transfer_queue_t) (slot : nat) (m : urpc_mb_t)
  : urpc_mb_t * transfer_queue_t :=
  let m := mk_mb URPC_CMD_NONE (mb_offs m) (mb_len m) in
  (m, set_mb q slot m).

(** [urpc_put_cmd(up, &m)] on the send communicator.  The [do ... while]
    loop re-reads the slot until its command field is empty; nothing in
    the calling process changes the slot meanwhile, so the call returns
    exactly when the slot is read empty.  [None] stands for a call that
    is still polling. *)
Definition urpc_put_cmd (uc : urpc_comm_t) (m : urpc_mb_t)
  : option (Z * urpc_comm_t) :=
  let q := tq uc in
  let req := last_put_req q + 1 in
  let slot := REQ2SLOT req in
  let next := mb q !!! slot in
  if decide (mb_cmd next <> URPC_CMD_NONE) then None
  else
    let ml := mlist uc !!! slot in
    let uc :=
      if decide (ml_len ml <> 0) then
        if decide (free_end uc < URPC_DATA_BUFF_LEN) then
          if decide (ml_offs ml = free_end uc) then
            set_free uc (free_begin uc) (u32 (free_end uc + ml_len ml))
          else uc
        else uc
      else uc in
    let uc :=
      if decide (mb_len m <> 0)
      then set_mlist uc slot (mk_ml (mb_offs m) (mb_len m))
      else set_mlist uc slot ml_zero in
    let q := set_mb q slot m in
    let q := set_last_put_req q req in
    Some (req, set_tq uc q).

(** ** Payload allocator (urpc_common.c) *)

(** Body of the [for] loop of [_gc_buffer] for one slot. *)
Definition gc_slot (uc : urpc_comm_t) (slot : nat) : urpc_comm_t :=
  let ml := mlist uc !!! slot in
  let m := mb (tq uc) !!! slot in
  if decide (mb_cmd m = URPC_CMD_NONE /\ ml_len ml > 0) then
    let uc :=
      if decide (free_end uc < URPC_DATA_BUFF_LEN)
      then set_free uc (free_begin uc) (u32 (ALIGN8B (u32 (ml_offs ml + ml_len ml))))
      else uc in
    let uc := set_mlist uc slot ml_zero in
    set_tq uc (set_mb (tq uc) slot mb_zero)
  else uc.

(** The slots visited by the loop, in order: [(last_slot + i) % N] for
    [i = 1 .. N]. *)
Definition gc_order (last_slot : nat) : list nat :=
  map (fun i => ((last_slot + i) mod URPC_LEN_MB)%nat) (seq 1 URPC_LEN_MB).

(** The wrap step at the head of [_gc_buffer]. *)
Definition gc_wrap (uc : urpc_comm_t) (last_slot : nat) : urpc_comm_t :=
  if decide (free_end uc = URPC_DATA_BUFF_LEN) then
    let ml := mlist uc !!! last_slot in
    let ml := if decide (ml_len ml = 0) then mk_ml (free_begin uc) (ml_len ml) else ml in
    let ml := mk_ml (ml_offs ml) (u32 (free_end uc - ml_offs ml)) in
    set_free (set_mlist uc last_slot ml) 0 0
  else uc.

(** [_gc_buffer(uc)]: returns the free byte count and the communicator. *)
Definition _gc_buffer (uc : urpc_comm_t) : Z * urpc_comm_t :=
  let last_req := u32 (last_put_req (tq uc)) in
  let last_slot := REQ2SLOT last_req in
  let uc := gc_wrap uc last_slot in
  let uc := fold_left gc_slot (gc_order last_slot) uc in
  (u32 (free_end uc - free_begin uc), uc).

(** What the receiving process does to the shared mailbox between two
    polls of the sender: it marks slots done.  [urpc_slot_done] is called
    with the mailbox value the receiver fetched from the slot. *)
Definition peer_slot_done (q : transfer_queue_t) (slot : nat) : transfer_queue_t :=
  snd (urpc_slot_done q slot (mb q !!! slot)).

Definition peer_done (uc : urpc_comm_t) (slots : list nat) : urpc_comm_t :=
  set_tq uc (fold_left peer_slot_done slots (tq uc)).

(** One observation of the outside world per iteration of the wait loop:
    the slots the receiver freed since the last poll and the value
    [timediff_us(ts)] reads in this iteration. *)
Definition alloc_env := list (list nat * Z).

Inductive wait_result :=
| WaitTimeout (uc : urpc_comm_t)
| WaitExit (uc : urpc_comm_t).

(** The [while] loop of [_alloc_payload]; [None]: the observations ran
    out while the loop was still polling. *)
Fixpoint alloc_wait (env : alloc_env) (uc : urpc_comm_t) (asize size : Z)
  : option wait_result :=
  if decide (u32 (free_end uc - free_begin uc) < asize) then
    match env with
    | [] => None
    | (freed, elapsed) :: env' =>
        let '(new_free, uc) := _gc_buffer (peer_done uc freed) in
        if decide (new_free < size) then
          if decide (elapsed > URPC_ALLOC_TIMEOUT_US) then Some (WaitTimeout uc)
          else alloc_wait env' uc asize size
        else Some (WaitExit uc)
    end
  else Some (WaitExit uc).

(** [_alloc_payload(uc, size)]: the returned [uint64_t] is the [.u64] view
    of the mailbox built in [res]; failure is the all-zero mailbox. *)
Definition _alloc_payload (env : alloc_env) (uc : urpc_comm_t) (size : Z)
  : option (urpc_mb_t * urpc_comm_t) :=
  let asize := u32 (ALIGN8B size) in
  match alloc_wait env uc asize size with
  | None => None
  | Some (WaitTimeout uc) => Some (mb_zero, uc)
  | Some (WaitExit uc) =>
      if decide (u32 (free_begin uc + asize) > free_end uc) then Some (mb_zero, uc)
      else
        let res := mk_mb 0 (u24 (free_begin uc)) size in
        let uc := set_free uc (u32 (free_begin uc + u32 (ALIGN8B size))) (free_end uc) in
        Some (res, uc)
  end.

(** ** Invariants of one direction (specification, section 3) *)

(** The sequence counters: the reader never overtakes the writer, and the
    writer is at most one ring ahead. *)
Definition counters_inv (q : transfer_queue_t) : Prop :=
  last_get_req q <= last_put_req q <= last_get_req q + Z.of_nat URPC_LEN_MB.

(** Every request published and not yet fetched sits in its slot with a
    non-empty command code. *)
Definition unread_live (q : transfer_queue_t) : Prop :=
  forall r, last_get_req q < r <= last_put_req q ->
            mb_cmd (mb q !!! REQ2SLOT r) <> URPC_CMD_NONE.

(** The mailbox and bookkeeping arrays have [URPC_LEN_MB] elements. *)
Definition comm_shape (uc : urpc_comm_t) : Prop :=
  length (mb (tq uc)) = URPC_LEN_MB /\ length (mlist uc) = URPC_LEN_MB.

Definition alloc_inv (uc : urpc_comm_t) : Prop :=
  0 <= free_begin uc <= free_end uc /\ free_end uc <= URPC_DATA_BUFF_LEN.

(** ** Interleavings of the two ends of one direction

    The sender completes a [urpc_put_cmd]; the receiver calls
    [urpc_get_cmd], either alone or, as [urpc_recv_progress] and the
    context's progress loop do, followed by [urpc_slot_done] on the slot of
    the request it fetched. *)
Inductive tq_event :=
| EvPut (m : urpc_mb_t)
| EvGet
| EvGetDone.

Definition tq_step (uc : urpc_comm_t) (ev : tq_event) : option urpc_comm_t :=
  match ev with
  | EvPut m => snd <$> urpc_put_cmd uc m
  | EvGet =>
      let '(_, _, q) := urpc_get_cmd (tq uc) mb_zero in Some (set_tq uc q)
  | EvGetDone =>
      let '(req, m, q) := urpc_get_cmd (tq uc) mb_zero in
      if decide (req < 0) then Some (set_tq uc q)
      else Some (set_tq uc (snd (urpc_slot_done q (REQ2SLOT req) m)))
  end.

(** Runs the events in order; [None] when a [urpc_put_cmd] in the sequence
    cannot complete because its slot is still occupied. *)
Fixpoint tq_run (uc : urpc_comm_t) (evs : list tq_event) : option urpc_comm_t :=
  match evs with
  | [] => Some uc
  | ev :: evs' =>
      match tq_step uc ev with
      | Some uc' => tq_run uc' evs'
      | None => None
      end
  end.

(** A put publishes a command: its code is not [URPC_CMD_NONE], the code
    reserved for an empty slot. *)
Definition publishes_command (ev : tq_event) : Prop :=
  match ev with
  | EvPut m => mb_cmd m <> URPC_CMD_NONE
  | _ => True
  end.

(** The only changes a slot's command field may undergo. *)
Definition cmd_transition (c c' : Z) : Prop :=
  c' = c \/
  (c = URPC_CMD_NONE /\ c' <> URPC_CMD_NONE) \/
  (c <> URPC_CMD_NONE /\ c' = URPC_CMD_NONE).

(** The invariant carried along an interleaving. *)
Definition tq_inv (uc : urpc_comm_t) : Prop :=
  comm_shape uc /\ counters_inv (tq uc) /\ unread_live (tq uc).

(** A slot the garbage pass reclaims: its command field is empty and its
    bookkeeping entry records a payload. *)
Definition reclaimable (uc : urpc_comm_t) (slot : nat) : bool :=
  bool_decide (mb_cmd (mb (tq uc) !!! slot) = URPC_CMD_NONE /\
               ml_len (mlist uc !!! slot) > 0).

(** What reclaiming a slot does to [free_end]: the guarded assignment in
    the loop body. *)
Definition extend_free_end (uc : urpc_comm_t) (fe : Z) (slot : nat) : Z :=
  let ml := mlist uc !!! slot in
  if decide (fe < URPC_DATA_BUFF_LEN)
  then u32 (ALIGN8B (u32 (ml_offs ml + ml_len ml)))
  else fe.





(** ** Sending (urpc_common.c) *)

(** [ENOMEM] of [errno.h]. *)
Definition ENOMEM : Z := 12.


(** [urpc_generic_send(up, cmd, fmt, ...)] on the host: size the payload,
    allocate it in the data ring [data], store the fields at its offset,
    put the command.  Returns the request number or [-ENOMEM], the
    communicator and the data ring. *)
Definition urpc_generic_send (env : alloc_env) (uc : urpc_comm_t) (data : memory)
    (cmd : Z) (fmt : string) (args : list send_arg)
  : option (Z * urpc_comm_t * memory) :=
  match pack_size fmt args with
  | None => None
  | Some sz =>
      let size := u64 (ALIGN8B (u64 sz)) in
      if decide (size <> 0) then
        match _alloc_payload env uc (u32 size) with
        | None => None
        | Some (m, uc) =>
            if decide (mb_u64 m = 0) then Some (- ENOMEM, uc, data)
            else
              match pack_fields fmt args data (mb_offs m) with
              | None => None
              | Some (data, _) =>
                  match urpc_put_cmd uc (mk_mb (u8 cmd) (mb_offs m) (mb_len m)) with
                  | None => None
                  | Some (req, uc) => Some (req, uc, data)
                  end
              end
        end
      else
        match urpc_put_cmd uc (mk_mb (u8 cmd) 0 0) with
        | None => None
        | Some (req, uc) => Some (req, uc, data)
        end
  end.






(** ** Peer: handler table and inbound progress (urpc_common.c) *)

Section Peer.
(** [W] is everything a handler may act on: the send direction and the
    application's own state.  Handlers do not touch the receive queue,
    whose reader is [urpc_recv_progress] itself, nor the handler table,
    which is set up before progress starts. *)
Context {W : Type}.

(** [urpc_handler_func]: called with the mailbox (by pointer, so it may
    change it), the request number, the payload pointer (an offset into
    the data ring, [None] for [NULL]) and the payload length; returns the
    error code. *)
Definition urpc_handler_func : Type :=
  W -> urpc_mb_t -> Z -> option Z -> Z -> Z * urpc_mb_t * W.

Record urpc_peer_t := mk_peer {
  recv : urpc_comm_t;
  handler : Z -> option urpc_handler_func;
  world : W
}.

(** [set_recv_payload], host side: the payload pointer and length. *)
Definition set_recv_payload (m : urpc_mb_t) : option Z * Z :=
  if decide (mb_len m > 0) then (Some (mb_offs m), mb_len m) else (None, 0).

(** What [urpc_recv_progress] does, as a trace. *)
Inductive recv_event :=
| RvHandler (cmd req err : Z)     (* the handler ran and returned [err] *)
| RvWarning (cmd err : Z)         (* the warning printed for [err <> 0] *)
| RvSlotDone (slot : nat).        (* [urpc_slot_done] on [slot] *)

(** One iteration of the [while] loop after a successful
    [urpc_get_cmd]. *)
Definition recv_one (up : urpc_peer_t) (q : transfer_queue_t) (m : urpc_mb_t) (req : Z)
  : urpc_peer_t * urpc_mb_t * list recv_event :=
  let '(payload, plen) := set_recv_payload m in
  let '(m, w, log) :=
    match handler up (mb_cmd m) with
    | Some func =>
        let '(err, m', w) := func (world up) m req payload plen in
        (m', w, RvHandler (mb_cmd m) req err ::
                if decide (err <> 0) then [RvWarning (mb_cmd m) err] else [])
    | None => (m, world up, [])
    end in
  let slot := REQ2SLOT req in
  let '(m, q) := urpc_slot_done q slot m in
  (mk_peer (set_tq (recv up) q) (handler up) w, m, log ++ [RvSlotDone slot]).

(** The loop, [budget] iterations at most ([done < ncmds]). *)
Fixpoint recv_loop (budget : nat) (up : urpc_peer_t) (m : urpc_mb_t)
  : nat * urpc_peer_t * list recv_event :=
  match budget with
  | O => (O, up, [])
  | S budget' =>
      let '(req, m, q) := urpc_get_cmd (tq (recv up)) m in
      if decide (req < 0) then (O, up, [])
      else
        let '(up, m, log) := recv_one up q m req in
        let '(done, up, log') := recv_loop budget' up m in
        (S done, up, log ++ log')
  end.

(** [urpc_recv_progress(up, ncmds)]. *)
Definition urpc_recv_progress (up : urpc_peer_t) (ncmds : Z)
  : Z * urpc_peer_t * list recv_event :=
  let '(done, up, log) := recv_loop (Z.to_nat ncmds) up mb_zero in
  (Z.of_nat done, up, log).

Definition slot_done_calls (log : list recv_event) : list nat :=
  omap (fun e => match e with RvSlotDone s => Some s | _ => None end) log.

(** The slots of the requests [first + 1 .. first + n]. *)
Definition slots_after (first : Z) (n : nat) : list nat :=
  map (fun i => REQ2SLOT (first + Z.of_nat i)) (seq 1 n).

(** ** [urpc_recv_progress_timeout] (urpc_common.c) *)

(** What a call of an [int] function hands back to its caller. *)
Inductive int_result :=
| Returns (v : Z)
| FallsOffEnd.        (* control reaches the closing brace: no value *)

(** The sending process publishing a mailbox between two polls: the
    stores [urpc_put_cmd] makes to the shared queue once the slot is
    free. *)
Definition remote_put (q : transfer_queue_t) (m : urpc_mb_t) : transfer_queue_t :=
  let req := last_put_req q + 1 in
  let slot := REQ2SLOT req in
  if decide (mb_cmd (mb q !!! slot) <> URPC_CMD_NONE) then q
  else set_last_put_req (set_mb q slot m) req.

(** One observation per iteration of the [do ... while] loop: what the
    sender published since the last poll, the value [get_time_us()] reads
    and the value [timediff_us(done_ts)] reads, should the iteration call
    them. *)
Definition poll_env := list (list urpc_mb_t * Z * Z).

(** The loop; [total] is not a variable of the C function, it counts the
    requests processed so that the model can say how many there were. *)
Fixpoint recv_timeout_loop (env : poll_env) (up : urpc_peer_t)
    (ncmds timeout_us done_ts total : Z) : option (urpc_peer_t * Z) :=
  match env with
  | [] => None
  | (arrived, now, elapsed) :: env' =>
      let up := mk_peer (set_tq (recv up) (fold_left remote_put arrived (tq (recv up))))
                        (handler up) (world up) in
      let '(done, up, _) := urpc_recv_progress up ncmds in
      let done_ts :=
        if decide (done = 0) then (if decide (done_ts = 0) then now else done_ts)
        else 0 in
      if decide (done_ts = 0 \/ elapsed < timeout_us)
      then recv_timeout_loop env' up ncmds timeout_us done_ts (total + done)
      else Some (up, total + done)
  end.

(** [urpc_recv_progress_timeout(up, ncmds, timeout_us)]: the result, the
    peer, and the number of requests the loop processed.  [None]: the
    observations ran out while the loop was still polling. *)
Definition urpc_recv_progress_timeout (env : poll_env) (up : urpc_peer_t)
    (ncmds timeout_us : Z) : option (int_result * urpc_peer_t * Z) :=
  match recv_timeout_loop env up ncmds timeout_us 0 0 with
  | Some (up, total) => Some (FallsOffEnd, up, total)
  | None => None
  end.

End Peer.

End Transport.

(** ** [vh_urpc_peer_create]: the peer record before its fields are set
    (vh_urpc.c)

    The record is a block of [sizeof(urpc_peer_t)] bytes; [malloc] returns
    it with whatever the heap held.  The layout of the structure is in the
    header that is not at hand, so its size and [URPC_MAX_PEERS] are
    parameters. *)

(** [sizeof(up)]: [up] is a pointer, eight bytes on the LP64 targets
    (x86-64 host, VE). *)
Definition sizeof_pointer : nat := 8.

(** [memset(s, c, n)] on a block: the first [n] bytes become
    [(unsigned char) c]. *)
Definition memset (block : list Z) (c : Z) (n : nat) : list Z :=
  replicate (n `min` length block) (u8 c) ++ drop n block.

(** The head of [vh_urpc_peer_create], up to and including the [memset]:
    [None] is the [NULL] return (peer limit reached, or [malloc] failed). *)
Definition vh_urpc_peer_create_block
    (URPC_MAX_PEERS num_peers : Z) (malloc_result : option (list Z))
  : option (list Z) :=
  if decide (num_peers = URPC_MAX_PEERS) then None
  else match malloc_result with
       | None => None
       | Some block => Some (memset block 0 sizeof_pointer)
       end.

(** The claim: every byte of the record is zero. *)
Definition zero_initialized (block : list Z) : Prop :=
  Forall (fun b => b = 0) block.

(** ** Two instances of the constants

    The values the specification gives as an example (256 slots, a ring of
    a few MiB, a deadline of a few seconds), and a small instance on which
    whole scenarios are evaluated. *)
Definition example_cfg : urpc_config :=
  {| URPC_LEN_MB := 256;
     URPC_DATA_BUFF_LEN := 4194304;
     URPC_ALLOC_TIMEOUT_US := 3000000;
     URPC_LEN_MB_pos := ltac:(cbn; lia);
     URPC_DATA_BUFF_LEN_range := ltac:(cbn; lia) |}.

Definition small_cfg : urpc_config :=
  {| URPC_LEN_MB := 4;
     URPC_DATA_BUFF_LEN := 64;
     URPC_ALLOC_TIMEOUT_US := 1000;
     URPC_LEN_MB_pos := ltac:(cbn; lia);
     URPC_DATA_BUFF_LEN_range := ltac:(cbn; lia) |}.

(** A communicator as [malloc] and a fresh segment may leave it: arrays of
    the right length with arbitrary contents. *)
Definition stale_comm (n : nat) : urpc_comm_t :=
  mk_comm (mk_tq 7 9 41 17 (replicate n (mk_mb 3 8 16))) 24 40
          (replicate n (mk_ml 8 16)).

(** ** The context's progress loop (ThreadContext.cpp)

    The transport shows through two observations per iteration of the
    loop: whether [urpc_get_cmd] on the receive queue fetched a reply (and,
    if so, what the command's result function returns for it), and
    whether [urpc_next_send_slot] found the next send slot free. *)

(** Modelled from the spec: the command object ([CommandImpl.hpp] is not
    among the sources; section 3, "Command"): its request identifier,
    its kind (remote or host-side, [isVH]), and the value its submit
    function returns when called. *)
Record Command := mk_cmd {
  cmd_id : Z;
  isVH : bool;
  submit_rv : Z
}.

Inductive ctx_state := VEO_STATE_UNKNOWN | VEO_STATE_RUNNING | VEO_STATE_EXIT.

(** Modelled from the spec: the command queue ([CommandImpl.hpp] is not
    among the sources; section 4.6): three FIFOs. *)
Record CommandQueue := mk_comq {
  pending : list Command;
  in_flight : list Command;
  completions : list Command
}.

(** Modelled from the spec: "pending.try_pop() returns the head if
    present". *)
Definition tryPopRequest (q : CommandQueue) : option Command * CommandQueue :=
  match pending q with
  | [] => (None, q)
  | c :: rest => (Some c, mk_comq rest (in_flight q) (completions q))
  end.

(** Modelled from the spec: "in_flight.pop() removes the head"; the code
    tests the result against [nullptr]. *)
Definition popInFlight (q : CommandQueue) : option Command * CommandQueue :=
  match in_flight q with
  | [] => (None, q)
  | c :: rest => (Some c, mk_comq (pending q) rest (completions q))
  end.

(** Modelled from the spec: "in_flight.push(cmd) appends in submission
    order". *)
Definition pushInFlight (q : CommandQueue) (c : Command) : CommandQueue :=
  mk_comq (pending q) (in_flight q ++ [c]) (completions q).

(** Modelled from the spec: "completions.push(cmd) appends". *)
Definition pushCompletion (q : CommandQueue) (c : Command) : CommandQueue :=
  mk_comq (pending q) (in_flight q) (completions q ++ [c]).

(** Modelled from the spec: the empty-queue test [empty_in_flight]. *)
Definition emptyInFlight (q : CommandQueue) : bool :=
  match in_flight q with [] => true | _ => false end.

(** Modelled from the spec: "cancel_all() drains pending and in-flight
    into completions". *)
Definition cancelAll (q : CommandQueue) : CommandQueue :=
  mk_comq [] [] (completions q ++ pending q ++ in_flight q).

(** The part of [ThreadContext] the loop works on; [ran] records, in
    order, the commands whose submit function has been called. *)
Record ThreadContext := mk_ctx {
  comq : CommandQueue;
  state : ctx_state;
  ran : list Command
}.

Record observation := mk_obs {
  reply : option Z;        (* [Some rv]: a reply arrived, result function gives [rv] *)
  send_slot_free : bool    (* [urpc_next_send_slot(up) >= 0] *)
}.

Inductive iteration_end :=
| ToCondition (recvd sent : Z) (c : ThreadContext)  (* reaches [while (...)] *)
| ReturnsEarly (c : ThreadContext)                  (* the [return] after [cancelAll] *)
| Throws (c : ThreadContext).                       (* [throw VEOException] *)

(** The second half of the loop body: try to submit a new command. *)
Definition try_submit (recvd : Z) (c : ThreadContext) (o : observation)
  : iteration_end :=
  if negb (send_slot_free o) then ToCondition recvd 0 c        (* [continue] *)
  else
    match tryPopRequest (comq c) with
    | (None, _) => ToCondition recvd 0 c
    | (Some cmd, q) =>
        if isVH cmd then
          if emptyInFlight q then
            ToCondition recvd 1
              (mk_ctx (pushCompletion q cmd) (state c) (ran c ++ [cmd]))
          else
            (* no [else] branch: [cmd] goes out of scope and is destroyed *)
            ToCondition recvd 0 (mk_ctx q (state c) (ran c))
        else
          if decide (submit_rv cmd = 0) then
            ToCondition recvd 1
              (mk_ctx (pushInFlight q cmd) (state c) (ran c ++ [cmd]))
          else
            ToCondition recvd 0 (mk_ctx q (state c) (ran c ++ [cmd]))
    end.

(** One pass through the body of the [do ... while] loop. *)
Definition progress_iteration (c : ThreadContext) (o : observation)
  : iteration_end :=
  match reply o with
  | Some rv =>
      match popInFlight (comq c) with
      | (None, _) => Throws c
      | (Some cmd, q) =>
          let q := pushCompletion q cmd in
          if decide (rv < 0)
          then ReturnsEarly (mk_ctx (cancelAll q) VEO_STATE_EXIT (ran c))
          else try_submit 1 (mk_ctx q (state c) (ran c)) o
      end
  | None => try_submit 0 c o
  end.

Inductive progress_end :=
| Returned (c : ThreadContext)
| Threw (c : ThreadContext).

(** [ThreadContext::_progress_nolock(ops)].  [ops] is decremented in the
    loop and not read again (its test is commented out).  [None]: the
    observations ran out while the loop was still going. *)
Fixpoint _progress_nolock (env : list observation) (ops : Z) (c : ThreadContext)
  : option progress_end :=
  match env with
  | [] => None
  | o :: env' =>
      match progress_iteration c o with
      | Throws c => Some (Threw c)
      | ReturnsEarly c => Some (Returned c)
      | ToCondition recvd sent c =>
          if decide (recvd + sent > 0) then _progress_nolock env' (ops - 1) c
          else Some (Returned c)
      end
  end.

(** Where a command is once it has been submitted. *)
Definition held (c : ThreadContext) (cmd : Command) : Prop :=
  cmd ∈ pending (comq c) \/ cmd ∈ in_flight (comq c) \/ cmd ∈ completions (comq c).

(** The context a call of [_progress_nolock] leaves behind, however it
    ends. *)
Definition ctx_of (e : progress_end) : ThreadContext :=
  match e with Returned c | Threw c => c end.

Definition remote (cmd : Command) : bool := negb (isVH cmd).

(** A remote command whose submit function reports success: the loop
    puts it in flight. *)
Definition accepted (cmd : Command) : bool :=
  remote cmd && bool_decide (submit_rv cmd = 0).

(** How far the loop has come between two contexts: the commands it
    popped from the pending queue and those it appended to the
    completions; the commands in flight and those accepted since are,
    in order, those completed by replies followed by those still in
    flight. *)
Definition advances (c c' : ThreadContext) : Prop :=
  exists popped new,
    pending (comq c) = popped ++ pending (comq c') /\
    completions (comq c') = completions (comq c) ++ new /\
    in_flight (comq c) ++ filter accepted popped
      = filter remote new ++ in_flight (comq c') /\
    Forall (fun cmd => isVH cmd = false) (in_flight (comq c')) /\
    state c' = state c.

(** A reply whose result function reports an error. *)
Definition error_reply (env : list observation) : Prop :=
  exists o rv, o ∈ env /\ reply o = Some rv /\ rv < 0.

(** ** The queue as a FIFO, and the waiting calls (urpc_common.c) *)

Section Waiting.
Context {cfg : urpc_config}.

(** The mailboxes published and not yet fetched, oldest first: the slots
    of the requests [last_get_req + 1 .. last_put_req]. *)
Definition unread (q : transfer_queue_t) : list urpc_mb_t :=
  map (fun i => mb q !!! REQ2SLOT (last_get_req q + Z.of_nat i))
      (seq 1 (Z.to_nat (last_put_req q - last_get_req q))).

(** One observation per poll of a waiting receiver: the mailboxes the
    sender published since the last poll and the value
    [timediff_us(done_ts)] reads, should the poll come to it. *)
Definition wait_env := list (list urpc_mb_t * Z).

(** [urpc_get_cmd_timeout(tq, &m, timeout_us)]: polls [urpc_get_cmd] while
    it returns -1 and the time is not up.  [None]: the observations ran
    out while the call was still polling. *)
Fixpoint urpc_get_cmd_timeout (env : wait_env) (q : transfer_queue_t)
    (m : urpc_mb_t) (timeout_us : Z) : option (Z * urpc_mb_t * transfer_queue_t) :=
  match env with
  | [] => None
  | (arrived, elapsed) :: env' =>
      let q := fold_left remote_put arrived q in
      let '(res, m, q) := urpc_get_cmd q m in
      if decide (res = -1 /\ elapsed < timeout_us)
      then urpc_get_cmd_timeout env' q m timeout_us
      else Some (res, m, q)
  end.

(** The polling loop of [urpc_recv_req_timeout]. *)
Fixpoint recv_req_wait (env : wait_env) (q : transfer_queue_t)
    (m : urpc_mb_t) (req timeout_us : Z) : option (Z * urpc_mb_t * transfer_queue_t) :=
  match env with
  | [] => None
  | (arrived, elapsed) :: env' =>
      let q := fold_left remote_put arrived q in
      let '(res, m, q) := urpc_get_req q m req in
      if decide (res = -1 /\ elapsed < timeout_us)
      then recv_req_wait env' q m req timeout_us
      else Some (res, m, q)
  end.

(** [urpc_recv_req_timeout(up, &m, req, timeout_us, &payload, &plen)] on
    the host: the value returned ([res == req]), the mailbox, the queue,
    and the payload pointer and length, which are stored only when the
    request was found. *)
Definition urpc_recv_req_timeout (env : wait_env) (q : transfer_queue_t)
    (m : urpc_mb_t) (req timeout_us : Z) (payload : option Z) (plen : Z)
  : option (bool * urpc_mb_t * transfer_queue_t * option Z * Z) :=
  match recv_req_wait env q m req timeout_us with
  | None => None
  | Some (res, m, q) =>
      if decide (res = req)
      then let '(payload, plen) := set_recv_payload m in
           Some (true, m, q, payload, plen)
      else Some (false, m, q, payload, plen)
  end.

(** The time is up at some poll of a waiting call. *)
Definition wait_deadline (env : wait_env) (timeout_us : Z) : Prop :=
  exists arrived elapsed, (arrived, elapsed) ∈ env /\ timeout_us <= elapsed.

End Waiting.

(** ** The payload ring within its bounds *)

Section Ring.
Context {cfg : urpc_config}.

(** A bookkeeping entry whose block, rounded up as the garbage pass
    rounds it, ends inside the data ring. *)
Definition ml_ok (ml : mlist_t) : Prop :=
  0 <= ml_offs ml /\ 0 <= ml_len ml /\
  ALIGN8B (ml_offs ml + ml_len ml) <= URPC_DATA_BUFF_LEN.

(** Both ends of the free interval and every bookkeeping entry lie
    inside the data ring. *)
Definition ring_inv (uc : urpc_comm_t) : Prop :=
  0 <= free_begin uc <= URPC_DATA_BUFF_LEN /\
  0 <= free_end uc <= URPC_DATA_BUFF_LEN /\
  Forall ml_ok (mlist uc).


End Ring.

(** ** The handler table (urpc_common.c) *)

(** [EINVAL] and [EEXIST] of [errno.h]. *)
Definition EINVAL : Z := 22.
Definition EEXIST : Z := 17.

Section Handlers.
Context {W : Type}.
(** [URPC_MAX_HANDLERS] is a constant of the header that is not at hand. *)
Variable URPC_MAX_HANDLERS : Z.

Definition set_handler (up : @urpc_peer_t W) (cmd : Z)
    (h : option (@urpc_handler_func W)) : urpc_peer_t :=
  mk_peer (recv up)
          (fun c => if decide (c = cmd) then h else handler up c)
          (world up).

(** [urpc_register_handler(up, cmd, handler)]; the function pointer may be
    [NULL] ([None]). *)
Definition urpc_register_handler (up : @urpc_peer_t W) (cmd : Z)
    (h : option (@urpc_handler_func W)) : Z * urpc_peer_t :=
  if decide (cmd <= 0 \/ cmd > URPC_MAX_HANDLERS) then (- EINVAL, up)
  else match handler up cmd with
       | Some _ => (- EEXIST, up)
       | None => (cmd, set_handler up cmd h)
       end.

(** [urpc_unregister_handler(up, cmd)]. *)
Definition urpc_unregister_handler (up : @urpc_peer_t W) (cmd : Z)
  : Z * urpc_peer_t :=
  if decide (cmd <= 0 \/ cmd > URPC_MAX_HANDLERS) then (- EINVAL, up)
  else (0, set_handler up cmd None).

(** A sequence of calls on the table. *)
Inductive handler_op :=
| OpRegister (cmd : Z) (h : option (@urpc_handler_func W))
| OpUnregister (cmd : Z).

Definition do_handler_op (up : @urpc_peer_t W) (op : handler_op) : urpc_peer_t :=
  match op with
  | OpRegister cmd h => snd (urpc_register_handler up cmd h)
  | OpUnregister cmd => snd (urpc_unregister_handler up cmd)
  end.

Definition unregisters (cmd : Z) (op : handler_op) : Prop :=
  match op with OpUnregister c => c = cmd | _ => False end.

End Handlers.

(** ** What inbound progress dispatches *)

Section Dispatch.
Context {W : Type}.

(** The handler invocations of a trace: command code and request number. *)
Definition handler_calls (log : list recv_event) : list (Z * Z) :=
  omap (fun e => match e with RvHandler cmd req _ => Some (cmd, req) | _ => None end) log.

(** Dispatching mailboxes in order, the first under request number
    [first + 1]: the state the handlers leave and the calls made. *)
Fixpoint dispatch (handler : Z -> option (@urpc_handler_func W)) (w : W)
    (first : Z) (entries : list urpc_mb_t) : W * list (Z * Z) :=
  match entries with
  | [] => (w, [])
  | m :: rest =>
      let req := first + 1 in
      let '(payload, plen) := set_recv_payload m in
      match handler (mb_cmd m) with
      | Some func =>
          let '(_, _, w') := func w m req payload plen in
          let '(w'', calls) := dispatch handler w' req rest in
          (w'', (mb_cmd m, req) :: calls)
      | None => dispatch handler w req rest
      end
  end.

End Dispatch.

(** ** Concrete inputs

    The scenarios on which the theorems are instantiated and the
    counterexamples evaluated. *)

(** An interleaving on a ring of four slots: two puts, a get with
    [urpc_slot_done], two more gets, three more puts. *)
Definition witness_events : list tq_event :=
  [EvPut (mk_mb 1 0 8); EvPut (mk_mb 2 8 16); EvGetDone; EvGet; EvGet;
   EvPut (mk_mb 3 24 8); EvPut (mk_mb 1 32 8); EvPut (mk_mb 1 40 8)].



(** A receive queue holding three requests: code 1, whose handler fails
    with 5; code 2, for which no handler is registered; code 3, whose
    handler succeeds.  The handlers count their invocations. *)
Definition counting_handlers (cmd : Z) : option (@urpc_handler_func nat) :=
  if decide (cmd = 1) then Some (fun w m _ _ _ => (5, m, S w))
  else if decide (cmd = 3) then Some (fun w m _ _ _ => (0, m, S w))
  else None.

Definition three_requests : urpc_peer_t :=
  let uc := vh_urpc_comm_init (cfg := small_cfg) (stale_comm 4) in
  mk_peer
    (set_tq uc (fold_left (remote_put (cfg := small_cfg))
                          [mk_mb 1 0 8; mk_mb 2 8 8; mk_mb 3 16 8] (tq uc)))
    counting_handlers O.

(** The echo payload of the specification's first scenario behind a
    counter and a timestamp: format ["IxLP"]. *)
Definition echo_args : list send_arg :=
  [SendI 7; SendL 1099511627781; SendP [Byte.xde; Byte.xad; Byte.xbe; Byte.xef]].

(** The initialised send direction of the small instance. *)
Definition fresh_comm : urpc_comm_t :=
  vh_urpc_comm_init (cfg := small_cfg) (stale_comm 4).

(** Four commands, one ring full on the small instance. *)
Definition four_commands : list urpc_mb_t :=
  [mk_mb 1 0 8; mk_mb 2 8 8; mk_mb 3 16 8; mk_mb 1 24 8].

(** A peer whose receive direction is freshly initialised. *)
Definition idle_peer : urpc_peer_t := mk_peer fresh_comm counting_handlers O.

(** Two remote calls whose submit functions succeed, and a host-side
    call. *)
Definition remote_call_1 : Command := mk_cmd 1 false 0.
Definition remote_call_2 : Command := mk_cmd 2 false 0.
Definition vh_call : Command := mk_cmd 3 true 0.

(** A payload holding one buffer field of four bytes. *)
Definition one_buffer : memory := store64 (fun _ => Byte.x00) 0 4.

(** * Properties *)

Section TransportProperties.
Context {cfg : urpc_config}.

(** ** Initialisation *)

Lemma insert_replicate_drop {A} (z : A) (l : list A) (n : nat) :
  (n < length l)%nat ->
  <[n := z]> (replicate n z ++ drop n l) = replicate (S n) z ++ drop (S n) l.
Proof.
  intros Hn.
  destruct (lookup_lt_is_Some_2 l n Hn) as [x Hx].
  rewrite (drop_S l x n Hx).
  rewrite replicate_S_end, <- app_assoc.
  rewrite insert_app_r_alt by (rewrite length_replicate; lia).
  rewrite length_replicate, Nat.sub_diag. reflexivity.
Qed.

Lemma comm_init_loop (n : nat) (uc : urpc_comm_t) :
  (n <= length (mb (tq uc)))%nat ->
  (n <= length (mlist uc))%nat ->
  let uc' := fold_left comm_init_slot (seq 0 n) uc in
  mb (tq uc') = replicate n mb_zero ++ drop n (mb (tq uc)) /\
  mlist uc' = replicate n ml_zero ++ drop n (mlist uc) /\
  sender_flags (tq uc') = sender_flags (tq uc) /\
  receiver_flags (tq uc') = receiver_flags (tq uc).
Proof.
  induction n as [|n IH]; intros Hmb Hml.
  - simpl. rewrite !drop_0. auto.
  - rewrite seq_S, fold_left_app.
    destruct IH as (IHmb & IHml & IHs & IHr); [lia | lia |].
    cbv zeta in *. cbn [fold_left Nat.add].
    set (uc0 := fold_left comm_init_slot (seq 0 n) uc) in *.
    unfold comm_init_slot.
    cbn [tq mb mlist set_mlist set_tq set_mb sender_flags receiver_flags].
    rewrite IHmb, IHml, !insert_replicate_drop by lia. auto.
Qed.

Lemma comm_init_fields (uc : urpc_comm_t) :
  comm_shape uc ->
  let uc' := vh_urpc_comm_init uc in
  mb (tq uc') = replicate URPC_LEN_MB mb_zero /\
  mlist uc' = replicate URPC_LEN_MB ml_zero /\
  sender_flags (tq uc') = 0 /\
  receiver_flags (tq uc') = 0 /\
  last_put_req (tq uc') = -1 /\
  last_get_req (tq uc') = -1 /\
  free_begin uc' = 0 /\
  free_end uc' = URPC_DATA_BUFF_LEN.
Proof.
  intros [Hmb Hml] uc'.
  destruct (comm_init_loop URPC_LEN_MB uc) as (Lmb & Lml & _ & _); [lia | lia |].
  cbv zeta in Lmb, Lml.
  rewrite drop_ge, app_nil_r in Lmb by lia.
  rewrite drop_ge, app_nil_r in Lml by lia.
  split; [exact Lmb|]. split; [exact Lml|].
  subst uc'. unfold vh_urpc_comm_init. cbn. auto 10.
Qed.

Lemma comm_init_invariants (uc : urpc_comm_t) :
  comm_shape uc ->
  let uc' := vh_urpc_comm_init uc in
  comm_shape uc' /\ counters_inv (tq uc') /\ unread_live (tq uc') /\ alloc_inv uc'.
Proof.
  intros Hshape uc'.
  destruct (comm_init_fields uc Hshape) as (Emb & Eml & _ & _ & Ep & Eg & Eb & Ee).
  fold uc' in Emb, Eml, Ep, Eg, Eb, Ee.
  pose proof URPC_DATA_BUFF_LEN_range as HD.
  unfold comm_shape, counters_inv, unread_live, alloc_inv.
  rewrite Emb, Eml, Ep, Eg, Eb, Ee, !length_replicate.
  split_and!; try reflexivity; try lia.
Qed.

(** C10.  [vh_urpc_comm_init] leaves a communicator whose N mailbox slots
    and N bookkeeping entries are all zero, both flag words zero, both
    sequence counters -1, and the whole data ring free ([free_begin = 0],
    [free_end = URPC_DATA_BUFF_LEN]); the queue and allocator invariants
    hold in that state. *)
Theorem vh_urpc_comm_init_state (uc : urpc_comm_t) :
  comm_shape uc ->
  let uc' := vh_urpc_comm_init uc in
  mb (tq uc') = replicate URPC_LEN_MB mb_zero /\
  mlist uc' = replicate URPC_LEN_MB ml_zero /\
  sender_flags (tq uc') = 0 /\
  receiver_flags (tq uc') = 0 /\
  last_put_req (tq uc') = -1 /\
  last_get_req (tq uc') = -1 /\
  free_begin uc' = 0 /\
  free_end uc' = URPC_DATA_BUFF_LEN /\
  free_end uc' - free_begin uc' = URPC_DATA_BUFF_LEN /\
  comm_shape uc' /\ counters_inv (tq uc') /\ unread_live (tq uc') /\ alloc_inv uc'.
Proof.
  intros Hshape uc'.
  destruct (comm_init_fields uc Hshape) as (Emb & Eml & Es & Er & Ep & Eg & Eb & Ee).
  destruct (comm_init_invariants uc Hshape) as (Hs & Hc & Hl & Ha).
  fold uc' in Emb, Eml, Es, Er, Ep, Eg, Eb, Ee, Hs, Hc, Hl, Ha.
  split_and!; try assumption. rewrite Eb, Ee. lia.
Qed.

(** ** Slots of request numbers *)

Lemma REQ2SLOT_lt (r : Z) : (REQ2SLOT r < URPC_LEN_MB)%nat.
Proof.
  unfold REQ2SLOT. pose proof URPC_LEN_MB_pos.
  pose proof (Z.mod_pos_bound r (Z.of_nat URPC_LEN_MB)). lia.
Qed.

Lemma REQ2SLOT_plus_N (r : Z) : REQ2SLOT (r + Z.of_nat URPC_LEN_MB) = REQ2SLOT r.
Proof.
  unfold REQ2SLOT. pose proof URPC_LEN_MB_pos.
  replace (r + Z.of_nat URPC_LEN_MB) with (r + 1 * Z.of_nat URPC_LEN_MB) by lia.
  rewrite Z_mod_plus_full. reflexivity.
Qed.

Lemma REQ2SLOT_apart (r r' : Z) :
  0 < r' - r < Z.of_nat URPC_LEN_MB -> REQ2SLOT r <> REQ2SLOT r'.
Proof.
  intros Hd E. unfold REQ2SLOT in E. pose proof URPC_LEN_MB_pos as HN.
  set (n := Z.of_nat URPC_LEN_MB) in *.
  assert (Hn : 0 < n) by (subst n; lia).
  pose proof (Z.mod_pos_bound r n Hn). pose proof (Z.mod_pos_bound r' n Hn).
  apply Z2Nat.inj in E; [| lia | lia].
  pose proof (Z.div_mod r n ltac:(lia)). pose proof (Z.div_mod r' n ltac:(lia)).
  set (k := r' / n - r / n).
  assert (Hk : r' - r = n * k) by (subst k; lia).
  destruct (Z_lt_le_dec k 1); nia.
Qed.

(** ** The transfer queue under interleaved puts and gets *)

Lemma urpc_put_cmd_returns (uc : urpc_comm_t) (m : urpc_mb_t) req uc' :
  urpc_put_cmd uc m = Some (req, uc') ->
  mb_cmd (mb (tq uc) !!! REQ2SLOT (last_put_req (tq uc) + 1)) = URPC_CMD_NONE /\
  req = last_put_req (tq uc) + 1 /\
  tq uc' = set_last_put_req (set_mb (tq uc) (REQ2SLOT req) m) req /\
  length (mlist uc') = length (mlist uc).
Proof.
  unfold urpc_put_cmd. intros H.
  case_decide as Hc; [discriminate|].
  injection H as <- <-.
  split; [exact Hc|]. split; [reflexivity|].
  repeat case_decide; cbn; rewrite ?length_insert; auto.
Qed.

Lemma urpc_get_cmd_cases (q : transfer_queue_t) (m : urpc_mb_t) :
  (last_put_req q <> last_get_req q /\
   urpc_get_cmd q m =
     (last_get_req q + 1, mb q !!! REQ2SLOT (last_get_req q + 1),
      set_last_get_req q (last_get_req q + 1))) \/
  (last_put_req q = last_get_req q /\ urpc_get_cmd q m = (-1, m, q)).
Proof.
  unfold urpc_get_cmd. case_decide as H; [left | right]; split; auto.
Qed.

Lemma cmd_transition_refl (c : Z) : cmd_transition c c.
Proof. left; reflexivity. Qed.

Lemma tq_step_preserves (uc : urpc_comm_t) (ev : tq_event) (uc' : urpc_comm_t) :
  tq_inv uc -> -1 <= last_get_req (tq uc) ->
  publishes_command ev ->
  tq_step uc ev = Some uc' ->
  tq_inv uc' /\ -1 <= last_get_req (tq uc') /\
  forall slot,
    cmd_transition (mb_cmd (mb (tq uc) !!! slot)) (mb_cmd (mb (tq uc') !!! slot)).
Proof.
  intros ((Hmb & Hml) & Hcnt & Hlive) Hge Hpub Hstep.
  unfold counters_inv in Hcnt. pose proof URPC_LEN_MB_pos as HN.
  destruct ev as [m | | ]; cbn in Hstep, Hpub.
  - (* put *)
    destruct (urpc_put_cmd uc m) as [[req uc1]|] eqn:Hput; [|discriminate].
    cbn in Hstep. injection Hstep as ->.
    apply urpc_put_cmd_returns in Hput as (Hfree & -> & Htq & Hlen).
    set (req := last_put_req (tq uc) + 1) in *.
    assert (Hroom : req <= last_get_req (tq uc) + Z.of_nat URPC_LEN_MB).
    { destruct (Z_le_gt_dec req (last_get_req (tq uc) + Z.of_nat URPC_LEN_MB))
        as [|Hfull]; [assumption|exfalso].
      apply (Hlive (last_get_req (tq uc) + 1)); [lia|].
      rewrite <- REQ2SLOT_plus_N.
      replace (last_get_req (tq uc) + 1 + Z.of_nat URPC_LEN_MB) with req
        by (subst req; lia).
      exact Hfree. }
    assert (Hslot : (REQ2SLOT req < length (mb (tq uc)))%nat)
      by (rewrite Hmb; apply REQ2SLOT_lt).
    split; [split; [|split] | split].
    + split; [rewrite Htq; cbn; rewrite length_insert; exact Hmb
             | rewrite Hlen; exact Hml].
    + unfold counters_inv. rewrite Htq. cbn. lia.
    + intros r Hr. rewrite Htq in Hr |- *. cbn in Hr |- *.
      destruct (decide (r = req)) as [->|Hne].
      * rewrite list_lookup_total_insert_eq by exact Hslot. exact Hpub.
      * assert (Hr' : last_get_req (tq uc) < r <= last_put_req (tq uc))
          by (subst req; lia).
        rewrite list_lookup_total_insert_ne; [apply Hlive; exact Hr'|].
        intros E. apply (Hlive r Hr'). rewrite <- E. exact Hfree.
    + rewrite Htq; cbn. exact Hge.
    + intros slot. rewrite Htq; cbn.
      destruct (decide (slot = REQ2SLOT req)) as [->|Hne].
      * rewrite list_lookup_total_insert_eq by exact Hslot.
        right; left. split; [exact Hfree | exact Hpub].
      * rewrite list_lookup_total_insert_ne by congruence. apply cmd_transition_refl.
  - (* get *)
    destruct (urpc_get_cmd_cases (tq uc) mb_zero) as [[Hne E]|[Heq E]];
      rewrite E in Hstep; injection Hstep as <-.
    + split; [split; [|split] | split].
      * split; assumption.
      * unfold counters_inv; cbn. lia.
      * intros r Hr; cbn in Hr |- *. apply Hlive; lia.
      * cbn. lia.
      * intros; apply cmd_transition_refl.
    + split; [split; [|split] | split]; try assumption.
      * split; assumption.
      * intros; apply cmd_transition_refl.
  - (* get followed by slot_done *)
    destruct (urpc_get_cmd_cases (tq uc) mb_zero) as [[Hne E]|[Heq E]];
      rewrite E in Hstep.
    + case_decide as Hneg; [lia|]. injection Hstep as <-.
      set (req := last_get_req (tq uc) + 1) in *.
      assert (Hslot : (REQ2SLOT req < length (mb (tq uc)))%nat)
        by (rewrite Hmb; apply REQ2SLOT_lt).
      split; [split; [|split] | split].
      * split; [cbn; rewrite length_insert; exact Hmb | exact Hml].
      * unfold counters_inv; cbn. lia.
      * intros r Hr; cbn in Hr |- *.
        rewrite list_lookup_total_insert_ne
          by (apply REQ2SLOT_apart; subst req; lia).
        apply Hlive; subst req; lia.
      * cbn. lia.
      * intros slot. cbn. destruct (decide (slot = REQ2SLOT req)) as [->|Hs].
        -- rewrite list_lookup_total_insert_eq by exact Hslot.
           cbn. destruct (decide (mb_cmd (mb (tq uc) !!! REQ2SLOT req) = URPC_CMD_NONE))
             as [E0|E0].
           ++ left. symmetry; exact E0.
           ++ right; right. split; [exact E0 | reflexivity].
        -- rewrite list_lookup_total_insert_ne by congruence.
           apply cmd_transition_refl.
    + case_decide as Hneg; [|lia]. injection Hstep as <-.
      split; [split; [|split] | split]; try assumption.
      * split; assumption.
      * intros; apply cmd_transition_refl.
Qed.

Lemma tq_run_preserves (evs : list tq_event) (uc uc' : urpc_comm_t) :
  tq_inv uc -> -1 <= last_get_req (tq uc) ->
  Forall publishes_command evs ->
  tq_run uc evs = Some uc' ->
  tq_inv uc' /\ -1 <= last_get_req (tq uc').
Proof.
  revert uc. induction evs as [|ev evs IH]; intros uc Hinv Hge Hpub Hrun.
  - injection Hrun as <-. auto.
  - cbn in Hrun. destruct (tq_step uc ev) as [uc1|] eqn:Hstep; [|discriminate].
    inversion Hpub as [|? ? Hev Hevs]; subst.
    destruct (tq_step_preserves uc ev uc1 Hinv Hge Hev Hstep) as (Hinv1 & Hge1 & _).
    exact (IH uc1 Hinv1 Hge1 Hevs Hrun).
Qed.

Lemma tq_inv_init (uc0 : urpc_comm_t) :
  comm_shape uc0 ->
  tq_inv (vh_urpc_comm_init uc0) /\ -1 <= last_get_req (tq (vh_urpc_comm_init uc0)).
Proof.
  intros Hshape.
  destruct (comm_init_fields uc0 Hshape) as (_ & _ & _ & _ & _ & Hget & _).
  destruct (comm_init_invariants uc0 Hshape) as (Hs & Hc & Hl & _).
  cbv zeta in *. split; [exact (conj Hs (conj Hc Hl)) | lia].
Qed.

(** X25.  Both counters never decrease and grow by at most one per
    completed call, so an interleaving of fewer than 2^63 calls never
    overflows an [int64_t]. *)
Lemma counters_bounded_by_steps (evs : list tq_event) (uc uc' : urpc_comm_t) :
  tq_run uc evs = Some uc' ->
  last_put_req (tq uc) <= last_put_req (tq uc')
    <= last_put_req (tq uc) + Z.of_nat (length evs) /\
  last_get_req (tq uc) <= last_get_req (tq uc')
    <= last_get_req (tq uc) + Z.of_nat (length evs).
Proof.
  revert uc. induction evs as [|ev evs IH]; intros uc Hrun.
  - injection Hrun as <-. cbn. lia.
  - cbn in Hrun. destruct (tq_step uc ev) as [uc1|] eqn:Hstep; [|discriminate].
    specialize (IH uc1 Hrun). cbn [length]. rewrite Nat2Z.inj_succ.
    enough (last_put_req (tq uc) <= last_put_req (tq uc1) <= last_put_req (tq uc) + 1 /\
            last_get_req (tq uc) <= last_get_req (tq uc1) <= last_get_req (tq uc) + 1)
      by lia.
    destruct ev as [m | | ]; cbn in Hstep.
    + destruct (urpc_put_cmd uc m) as [[req uc2]|] eqn:Hput; [|discriminate].
      cbn in Hstep. injection Hstep as ->.
      apply urpc_put_cmd_returns in Hput as (_ & -> & Htq & _).
      rewrite Htq. cbn. lia.
    + destruct (urpc_get_cmd_cases (tq uc) mb_zero) as [[_ E]|[_ E]];
        rewrite E in Hstep; injection Hstep as <-; cbn; lia.
    + destruct (urpc_get_cmd_cases (tq uc) mb_zero) as [[_ E]|[_ E]];
        rewrite E in Hstep; case_decide; injection Hstep as <-; cbn; lia.
Qed.


(** ** The garbage pass *)






Lemma gc_slot_skip (uc : urpc_comm_t) (s : nat) :
  reclaimable uc s = false -> gc_slot uc s = uc.
Proof.
  unfold reclaimable, gc_slot. intros H.
  apply bool_decide_eq_false in H. case_decide; [contradiction | reflexivity].
Qed.

Lemma gc_slot_reclaim (uc : urpc_comm_t) (s : nat) :
  reclaimable uc s = true ->
  gc_slot uc s =
    mk_comm (set_mb (tq uc) s mb_zero) (free_begin uc)
            (extend_free_end uc (free_end uc) s) (<[s := ml_zero]> (mlist uc)).
Proof.
  unfold reclaimable, gc_slot, extend_free_end. intros H.
  apply bool_decide_eq_true in H. case_decide; [|contradiction].
  case_decide; reflexivity.
Qed.


Lemma gc_slot_keeps (uc : urpc_comm_t) (s : nat) :
  length (mb (tq (gc_slot uc s))) = length (mb (tq uc)) /\
  length (mlist (gc_slot uc s)) = length (mlist uc) /\
  free_begin (gc_slot uc s) = free_begin uc /\
  last_put_req (tq (gc_slot uc s)) = last_put_req (tq uc) /\
  last_get_req (tq (gc_slot uc s)) = last_get_req (tq uc).
Proof.
  destruct (reclaimable uc s) eqn:E.
  - rewrite (gc_slot_reclaim uc s E). cbn. rewrite !length_insert. auto.
  - rewrite (gc_slot_skip uc s E). auto.
Qed.




Lemma gc_wrap_shape (uc : urpc_comm_t) (L : nat) :
  length (mb (tq (gc_wrap uc L))) = length (mb (tq uc)) /\
  length (mlist (gc_wrap uc L)) = length (mlist uc) /\
  last_put_req (tq (gc_wrap uc L)) = last_put_req (tq uc) /\
  last_get_req (tq (gc_wrap uc L)) = last_get_req (tq uc) /\
  mb (tq (gc_wrap uc L)) = mb (tq uc).
Proof.
  unfold gc_wrap. case_decide; cbn; rewrite ?length_insert; auto.
Qed.




(** ** The allocator *)





Lemma alloc_wait_nil (uc : urpc_comm_t) (asize size : Z) :
  alloc_wait [] uc asize size =
  if decide (u32 (free_end uc - free_begin uc) < asize) then None
  else Some (WaitExit uc).
Proof. reflexivity. Qed.

Lemma alloc_wait_cons freed elapsed (env : alloc_env) (uc : urpc_comm_t) (asize size : Z) :
  alloc_wait ((freed, elapsed) :: env) uc asize size =
  if decide (u32 (free_end uc - free_begin uc) < asize) then
    if decide (fst (_gc_buffer (peer_done uc freed)) < size) then
      if decide (elapsed > URPC_ALLOC_TIMEOUT_US)
      then Some (WaitTimeout (snd (_gc_buffer (peer_done uc freed))))
      else alloc_wait env (snd (_gc_buffer (peer_done uc freed))) asize size
    else Some (WaitExit (snd (_gc_buffer (peer_done uc freed))))
  else Some (WaitExit uc).
Proof. reflexivity. Qed.




(** The arrays keep their length through an allocation. *)
Lemma gc_fold_length (order : list nat) (uc : urpc_comm_t) :
  length (mb (tq (fold_left gc_slot order uc))) = length (mb (tq uc)).
Proof.
  revert uc. induction order as [|a rest IH]; intros uc; [reflexivity|].
  cbn. rewrite IH. apply gc_slot_keeps.
Qed.

Lemma peer_done_length (uc : urpc_comm_t) (freed : list nat) :
  length (mb (tq (peer_done uc freed))) = length (mb (tq uc)).
Proof.
  unfold peer_done. cbn. generalize (tq uc) as q.
  induction freed as [|s rest IH]; intros q; [reflexivity|].
  cbn. rewrite IH. unfold peer_slot_done. cbn. apply length_insert.
Qed.

Lemma gc_buffer_length (uc : urpc_comm_t) :
  length (mb (tq (snd (_gc_buffer uc)))) = length (mb (tq uc)).
Proof. unfold _gc_buffer. cbn. rewrite gc_fold_length. apply gc_wrap_shape. Qed.

Lemma alloc_wait_length (env : alloc_env) (uc : urpc_comm_t) (asize size : Z) w :
  alloc_wait env uc asize size = Some w ->
  length (mb (tq (match w with WaitTimeout u | WaitExit u => u end)))
  = length (mb (tq uc)).
Proof.
  revert uc. induction env as [|[freed elapsed] env IH]; intros uc H.
  - rewrite alloc_wait_nil in H. case_decide; [discriminate|]. injection H as <-.
    reflexivity.
  - rewrite alloc_wait_cons in H.
    pose proof (gc_buffer_length (peer_done uc freed)) as Hg.
    rewrite peer_done_length in Hg.
    case_decide as Hlt; [|injection H as <-; reflexivity].
    case_decide as Hsmall; [|injection H as <-; exact Hg].
    case_decide as Hlate; [injection H as <-; exact Hg|].
    rewrite (IH _ H). exact Hg.
Qed.

Lemma alloc_payload_success (env : alloc_env) (uc : urpc_comm_t) (size : Z) r uc' :
  _alloc_payload env uc size = Some (r, uc') ->
  mb_u64 r <> 0 ->
  mb_cmd r = 0 /\ mb_len r = size /\
  length (mb (tq uc')) = length (mb (tq uc)).
Proof.
  unfold _alloc_payload. intros H Hnz.
  destruct (alloc_wait env uc (u32 (ALIGN8B size)) size) as [w|] eqn:Hw; [|discriminate].
  apply alloc_wait_length in Hw.
  destruct w as [u|u]; [injection H as <- <-; contradiction|].
  case_decide; injection H as <- <-; [contradiction|].
  cbn. auto.
Qed.

Lemma ALIGN8B_div (x : Z) : ALIGN8B x = 8 * ((x + 7) / 8).
Proof.
  unfold ALIGN8B. rewrite <- Z.ldiff_land.
  change 7 with (Z.ones 3) at 2.
  rewrite Z.ldiff_ones_r by lia.
  rewrite Z.shiftl_mul_pow2, Z.shiftr_div_pow2 by lia.
  change (2 ^ 3) with 8. lia.
Qed.

(** [ALIGN8B] rounds up to the next multiple of eight. *)
Lemma ALIGN8B_bounds (x : Z) : x <= ALIGN8B x < x + 8 /\ ALIGN8B x mod 8 = 0.
Proof.
  rewrite ALIGN8B_div.
  pose proof (Z.div_mod (x + 7) 8 ltac:(lia)).
  pose proof (Z.mod_pos_bound (x + 7) 8 ltac:(lia)).
  split; [lia|]. rewrite Z.mul_comm. apply Z_mod_mult.
Qed.

(** ** Inbound progress *)

Section PeerProperties.
Context {W : Type}.
Implicit Types (up : @urpc_peer_t W).

Lemma recv_one_spec up (q : transfer_queue_t) (m : urpc_mb_t) (req : Z) :
  exists m1,
    mb_cmd m1 = URPC_CMD_NONE /\
    tq (recv (recv_one up q m req).1.1) = set_mb q (REQ2SLOT req) m1 /\
    slot_done_calls (recv_one up q m req).2 = [REQ2SLOT req] /\
    handler (recv_one up q m req).1.1 = handler up.
Proof.
  unfold recv_one. destruct (set_recv_payload m) as [payload plen].
  destruct (handler up (mb_cmd m)) as [func|].
  - destruct (func (world up) m req payload plen) as [[err m'] w].
    cbn. exists (mk_mb URPC_CMD_NONE (mb_offs m') (mb_len m')).
    split_and!; try reflexivity. case_decide; reflexivity.
  - cbn. exists (mk_mb URPC_CMD_NONE (mb_offs m) (mb_len m)).
    split_and!; reflexivity.
Qed.

Lemma slots_after_S (first : Z) (n : nat) :
  slots_after first (S n) = REQ2SLOT (first + 1) :: slots_after (first + 1) n.
Proof.
  unfold slots_after. cbn [seq map]. f_equal.
  rewrite <- seq_shift, map_map. apply map_ext. intros i. f_equal. lia.
Qed.

Lemma recv_loop_spec (budget : nat) up (m : urpc_mb_t) :
  length (mb (tq (recv up))) = URPC_LEN_MB ->
  -1 <= last_get_req (tq (recv up)) <= last_put_req (tq (recv up)) ->
  let first := last_get_req (tq (recv up)) in
  let r := recv_loop budget up m in
  let done := r.1.1 in
  let up' := r.1.2 in
  Z.of_nat done = Z.min (Z.of_nat budget) (last_put_req (tq (recv up)) - first) /\
  last_get_req (tq (recv up')) = first + Z.of_nat done /\
  last_put_req (tq (recv up')) = last_put_req (tq (recv up)) /\
  length (mb (tq (recv up'))) = URPC_LEN_MB /\
  slot_done_calls r.2 = slots_after first done /\
  (forall s, s ∈ slots_after first done ->
     mb_cmd (mb (tq (recv up')) !!! s) = URPC_CMD_NONE) /\
  (forall s, mb_cmd (mb (tq (recv up)) !!! s) = URPC_CMD_NONE ->
     mb_cmd (mb (tq (recv up')) !!! s) = URPC_CMD_NONE) /\
  handler up' = handler up.
Proof.
  revert up m. induction budget as [|budget IH]; intros up m Hlen Hcnt first r done up'.
  - subst r done up'. cbn. split_and!; auto; try lia.
    intros s Hs. apply elem_of_nil in Hs as [].
  - subst r done up'. cbn [recv_loop].
    destruct (urpc_get_cmd_cases (tq (recv up)) m) as [[Hne E]|[Heq E]]; rewrite E.
    + fold first. case_decide as Hneg; [subst first; lia|].
      destruct (recv_one_spec up (set_last_get_req (tq (recv up)) (first + 1))
                  (mb (tq (recv up)) !!! REQ2SLOT (first + 1)) (first + 1))
        as (m1 & Hm1 & Htq & Hcalls & Hh).
      destruct (recv_one up (set_last_get_req (tq (recv up)) (first + 1))
                  (mb (tq (recv up)) !!! REQ2SLOT (first + 1)) (first + 1))
        as [[up1 m2] log1].
      cbn [fst snd] in Htq, Hcalls, Hh.
      assert (Hlen1 : length (mb (tq (recv up1))) = URPC_LEN_MB)
        by (rewrite Htq; cbn; rewrite length_insert; exact Hlen).
      assert (Hcnt1 : -1 <= last_get_req (tq (recv up1)) <= last_put_req (tq (recv up1)))
        by (rewrite Htq; cbn; subst first; lia).
      specialize (IH up1 m2 Hlen1 Hcnt1). cbv zeta in IH.
      destruct (recv_loop budget up1 m2) as [[done1 up2] log2].
      cbn [fst snd] in IH |- *.
      destruct IH as (Id & Ig & Ip & Il & Ic & Ifree & Imono & Ih).
      rewrite Htq in Id, Ig, Ip, Ic, Ifree. cbn in Id, Ig, Ip, Ic, Ifree.
      assert (Hslot : (REQ2SLOT (first + 1) < length (mb (tq (recv up))))%nat)
        by (rewrite Hlen; apply REQ2SLOT_lt).
      split_and!; try lia; try congruence.
      * unfold slot_done_calls in *. rewrite omap_app, Hcalls, Ic, slots_after_S.
        reflexivity.
      * intros s Hs. rewrite slots_after_S in Hs. apply elem_of_cons in Hs as [->|Hs].
        -- apply Imono. rewrite Htq. cbn.
           rewrite list_lookup_total_insert_eq by exact Hslot. exact Hm1.
        -- apply Ifree. exact Hs.
      * intros s Hs. apply Imono. rewrite Htq. cbn.
        destruct (decide (s = REQ2SLOT (first + 1))) as [->|Hd].
        -- rewrite list_lookup_total_insert_eq by exact Hslot. exact Hm1.
        -- rewrite list_lookup_total_insert_ne by congruence. exact Hs.
    + case_decide as Hneg; [|lia]. cbn. split_and!; auto; try lia.
      intros s Hs. apply elem_of_nil in Hs as [].
Qed.

(** C7.  [urpc_recv_progress] processes the entries available, at most
    [ncmds] of them, and returns that count: neither a handler returning
    non-zero nor a command code without a handler ends the loop (the count
    does not depend on the handler table or on what handlers return).
    [urpc_slot_done] is called once for each processed entry, in order, on
    that entry's slot, and each of those slots is empty afterwards. *)
Theorem urpc_recv_progress_frees_slots up (ncmds : Z) :
  comm_shape (recv up) ->
  -1 <= last_get_req (tq (recv up)) <= last_put_req (tq (recv up)) ->
  let first := last_get_req (tq (recv up)) in
  let r := urpc_recv_progress up ncmds in
  let done := r.1.1 in
  let up' := r.1.2 in
  done = Z.min (Z.max ncmds 0) (last_put_req (tq (recv up)) - first) /\
  0 <= done <= Z.max ncmds 0 /\
  last_get_req (tq (recv up')) = first + done /\
  slot_done_calls r.2 = slots_after first (Z.to_nat done) /\
  (forall s, s ∈ slots_after first (Z.to_nat done) ->
     mb_cmd (mb (tq (recv up')) !!! s) = URPC_CMD_NONE) /\
  handler up' = handler up.
Proof.
  intros [Hlen _] Hcnt first r done up'.
  pose proof (recv_loop_spec (Z.to_nat ncmds) up mb_zero Hlen Hcnt) as H.
  cbv zeta in H. subst r done up'. unfold urpc_recv_progress.
  destruct (recv_loop (Z.to_nat ncmds) up mb_zero) as [[done up1] log].
  cbn [fst snd] in H |- *.
  destruct H as (Hd & Hg & _ & _ & Hc & Hfree & _ & Hh).
  rewrite Nat2Z.id. fold first in Hd, Hg, Hc, Hfree.
  split_and!; auto; lia.
Qed.

(** Whatever the loop processed, the function has no value to return. *)
Lemma urpc_recv_progress_timeout_no_value
    (env : poll_env) up (ncmds timeout_us : Z) r up' total :
  urpc_recv_progress_timeout env up ncmds timeout_us = Some (r, up', total) ->
  r = FallsOffEnd.
Proof.
  unfold urpc_recv_progress_timeout. intros H.
  destruct (recv_timeout_loop env up ncmds timeout_us 0 0) as [[up1 total1]|];
    [|discriminate].
  injection H as <- _ _. reflexivity.
Qed.

End PeerProperties.

End TransportProperties.

(** ** Codec *)

Lemma map_nth_seq {A} (d : A) (bs : list A) :
  map (fun i => nth i bs d) (seq 0 (length bs)) = bs.
Proof.
  induction bs as [|b bs IH]; [reflexivity|].
  cbn [length seq map nth]. f_equal.
  rewrite <- seq_shift, map_map. exact IH.
Qed.

Lemma load_store_same (mem : memory) (a : Z) (bs : list byte) :
  load_bytes (store_bytes mem a bs) a (length bs) = bs.
Proof.
  unfold load_bytes. rewrite <- (map_nth_seq Byte.x00 bs) at 2.
  apply map_ext_in. intros i Hi. apply in_seq in Hi.
  unfold store_bytes. case_decide; [|lia]. f_equal. lia.
Qed.

Lemma load_bytes_ext (mem mem' : memory) (a : Z) (n : nat) :
  (forall x, a <= x < a + Z.of_nat n -> mem' x = mem x) ->
  load_bytes mem' a n = load_bytes mem a n.
Proof.
  intros H. unfold load_bytes. apply map_ext_in. intros i Hi.
  apply in_seq in Hi. apply H. lia.
Qed.

Lemma store_bytes_below (mem : memory) (a : Z) (bs : list byte) (x : Z) :
  x < a -> store_bytes mem a bs x = mem x.
Proof. intros H. unfold store_bytes. case_decide; [lia | reflexivity]. Qed.

Lemma load32_store32 (mem : memory) (a v : Z) :
  0 <= v < 2 ^ 32 -> load32 (store32 mem a v) a = v.
Proof.
  intros Hv. unfold load32, store32.
  rewrite <- (length_le_split 4 v) at 2.
  rewrite load_store_same, le_combine_split. apply Z.mod_small. exact Hv.
Qed.

Lemma load64_store64 (mem : memory) (a v : Z) :
  0 <= v < 2 ^ 64 -> load64 (store64 mem a v) a = v.
Proof.
  intros Hv. unfold load64, store64.
  rewrite <- (length_le_split 8 v) at 2.
  rewrite load_store_same, le_combine_split. apply Z.mod_small. exact Hv.
Qed.

Lemma load64_range (mem : memory) (a : Z) : 0 <= load64 mem a < 2 ^ 64.
Proof.
  unfold load64. pose proof (le_combine_bound (load_bytes mem a 8)) as H.
  unfold load_bytes in H. rewrite length_map, length_seq in H. exact H.
Qed.

Lemma pack_size_nonneg (fmt : string) (args : list send_arg) (sz : Z) :
  pack_size fmt args = Some sz -> 0 <= sz.
Proof.
  revert args sz. induction fmt as [|c rest IH]; intros args sz H; cbn in H.
  - injection H as <-. lia.
  - destruct (classify c); destruct args as [|[v|v|data] args'];
      try discriminate; cbn in H;
      try (destruct (pack_size rest _) as [sz'|] eqn:E; [|discriminate];
           injection H as <-; apply IH in E; lia);
      eapply IH; eassumption.
Qed.

(** The emitting loop advances [pp] by the size the sizing loop computed
    and leaves memory below [pp] alone. *)
Lemma pack_fields_frame (fmt : string) (args : list send_arg)
    (mem mem' : memory) (pp pp' sz : Z) :
  pack_size fmt args = Some sz ->
  pack_fields fmt args mem pp = Some (mem', pp') ->
  pp' = pp + sz /\ forall x, x < pp -> mem' x = mem x.
Proof.
  revert args mem pp sz.
  induction fmt as [|c rest IH]; intros args mem pp sz Hs Hp; cbn in Hs, Hp.
  - injection Hs as <-. injection Hp as <- <-. split; [lia | auto].
  - destruct (classify c); destruct args as [|[v|v|data] args'];
      try discriminate; cbn in Hs;
      try (destruct (pack_size rest _) as [sz'|] eqn:E; [|discriminate];
           injection Hs as <-;
           pose proof (pack_size_nonneg _ _ _ E);
           destruct (IH _ _ _ _ E Hp) as [-> Hfr]; split; [lia|];
           intros x Hx; rewrite Hfr by lia;
           unfold store32, store64; try case_decide;
           rewrite ?store_bytes_below by lia; reflexivity);
      try (destruct (IH _ _ _ _ Hs Hp) as [-> Hfr]; split; [lia | exact Hfr]).
Qed.

Lemma s64_small (x : Z) : - 2 ^ 63 <= x < 2 ^ 63 -> s64 x = x.
Proof. intros H. unfold s64. rewrite Z.mod_small by lia. lia. Qed.

Lemma unpack_fields_cons (c : ascii) (rest : string) (mem : memory) (pp lsz : Z) :
  0 <= lsz ->
  unpack_fields (String c rest) mem pp lsz =
  match classify c with
  | FieldI =>
      let r := unpack_fields rest mem (pp + 4) (lsz - 4) in
      (RecvI (load32 mem pp) :: r.1, r.2)
  | FieldL =>
      let r := unpack_fields rest mem (pp + 8) (lsz - 8) in
      (RecvL (load64 mem pp) :: r.1, r.2)
  | FieldP =>
      let r := unpack_fields rest mem (pp + 8 + load64 mem pp)
                 (s64 (lsz - 8 - load64 mem pp)) in
      (RecvP (pp + 8) (load64 mem pp) :: r.1, r.2)
  | FieldX => unpack_fields rest mem (pp + 4) (lsz - 4)
  | Illegal => unpack_fields rest mem pp lsz
  end.
Proof.
  intros H. cbn [unpack_fields]. case_decide; [lia|].
  destruct (classify c); try reflexivity;
    match goal with |- context [unpack_fields rest mem ?a ?b] =>
      destruct (unpack_fields rest mem a b) end; reflexivity.
Qed.

(** Unpacking what the emitting loop stored, from the same [pp], with at
    least the packed size as budget. *)
Lemma pack_unpack_fields (fmt : string) (args : list send_arg)
    (mem mem' : memory) (lo pp pp' sz lsz : Z) :
  args_match fmt args ->
  pack_size fmt args = Some sz ->
  pack_fields fmt args mem pp = Some (mem', pp') ->
  sz <= lsz < 2 ^ 63 ->
  lo <= pp ->
  exists vals,
    unpack_fields fmt mem' pp lsz = (vals, lsz - sz) /\
    Forall2 (unpacks_to mem' lo pp') args vals.
Proof.
  revert args mem pp sz lsz.
  induction fmt as [|c rest IH]; intros args mem pp sz lsz Hm Hs Hp Hl Hlo.
  - cbn in Hm, Hs, Hp. subst args. injection Hs as <-. injection Hp as <- <-.
    exists []. split; [cbn; f_equal; lia | constructor].
  - pose proof (pack_size_nonneg _ _ _ Hs) as Hsz.
    rewrite unpack_fields_cons by lia.
    cbn in Hm, Hs, Hp.
    destruct (classify c); destruct args as [|[v|v|data] args'];
      try contradiction; cbn in Hs.
    + (* I *)
      destruct Hm as [Hv Hm].
      destruct (pack_size rest args') as [sz'|] eqn:E; [|discriminate].
      cbn in Hs. injection Hs as <-.
      destruct (pack_fields_frame _ _ _ _ _ _ _ E Hp) as [Hpp Hfr].
      destruct (IH _ _ _ _ (lsz - 4) Hm E Hp ltac:(lia) ltac:(lia)) as (vals & Hu & Hf).
      rewrite Hu. cbn. eexists. split; [f_equal; lia|].
      constructor; [|exact Hf]. cbn. unfold load32.
      rewrite (load_bytes_ext (store32 mem pp v)) by (intros; apply Hfr; lia).
      apply load32_store32. exact Hv.
    + (* L *)
      destruct Hm as [Hv Hm].
      destruct (pack_size rest args') as [sz'|] eqn:E; [|discriminate].
      cbn in Hs. injection Hs as <-.
      destruct (pack_fields_frame _ _ _ _ _ _ _ E Hp) as [Hpp Hfr].
      destruct (IH _ _ _ _ (lsz - 8) Hm E Hp ltac:(lia) ltac:(lia)) as (vals & Hu & Hf).
      rewrite Hu. cbn. eexists. split; [f_equal; lia|].
      constructor; [|exact Hf]. cbn. unfold load64.
      rewrite (load_bytes_ext (store64 mem pp v)) by (intros; apply Hfr; lia).
      apply load64_store64. exact Hv.
    + (* P *)
      destruct (pack_size rest args') as [sz'|] eqn:E; [|discriminate].
      cbn in Hs. injection Hs as <-.
      pose proof (pack_size_nonneg _ _ _ E) as Hsz'.
      set (n := Z.of_nat (length data)) in *.
      set (mem1 := store64 mem pp n) in *.
      set (mem2 := if decide (n <> 0) then store_bytes mem1 (pp + 8) data else mem1) in *.
      destruct (pack_fields_frame _ _ _ _ _ _ _ E Hp) as [Hpp Hfr].
      assert (Hn : load64 mem' pp = n).
      { unfold load64. rewrite (load_bytes_ext mem1).
        - apply load64_store64. lia.
        - intros x Hx. rewrite Hfr by lia. subst mem2.
          case_decide; [apply store_bytes_below; lia | reflexivity]. }
      rewrite Hn. rewrite s64_small by lia.
      destruct (IH _ _ _ _ (lsz - 8 - n) Hm E Hp ltac:(lia) ltac:(lia))
        as (vals & Hu & Hf).
      rewrite Hu. cbn. eexists. split; [f_equal; lia|].
      constructor; [|exact Hf]. cbn. fold n. split_and!; try lia.
      rewrite (load_bytes_ext mem2) by (intros; apply Hfr; lia).
      subst mem2. case_decide as Hz.
      * apply load_store_same.
      * destruct data; [reflexivity | cbn in n; lia].
    + (* x, with or without arguments left *)
      destruct (pack_size rest []) as [sz'|] eqn:E; [|discriminate].
      cbn in Hs. injection Hs as <-.
      destruct (IH _ _ _ _ (lsz - 4) Hm E Hp ltac:(lia) ltac:(lia)) as (vals & Hu & Hf).
      exists vals. split; [rewrite Hu; f_equal; lia | exact Hf].
    + destruct (pack_size rest (SendI v :: args')) as [sz'|] eqn:E; [|discriminate].
      cbn in Hs. injection Hs as <-.
      destruct (IH _ _ _ _ (lsz - 4) Hm E Hp ltac:(lia) ltac:(lia)) as (vals & Hu & Hf).
      exists vals. split; [rewrite Hu; f_equal; lia | exact Hf].
    + destruct (pack_size rest (SendL v :: args')) as [sz'|] eqn:E; [|discriminate].
      cbn in Hs. injection Hs as <-.
      destruct (IH _ _ _ _ (lsz - 4) Hm E Hp ltac:(lia) ltac:(lia)) as (vals & Hu & Hf).
      exists vals. split; [rewrite Hu; f_equal; lia | exact Hf].
    + destruct (pack_size rest (SendP data :: args')) as [sz'|] eqn:E; [|discriminate].
      cbn in Hs. injection Hs as <-.
      destruct (IH _ _ _ _ (lsz - 4) Hm E Hp ltac:(lia) ltac:(lia)) as (vals & Hu & Hf).
      exists vals. split; [rewrite Hu; f_equal; lia | exact Hf].
    + exact (IH _ _ _ _ lsz Hm Hs Hp Hl Hlo).
    + exact (IH _ _ _ _ lsz Hm Hs Hp Hl Hlo).
    + exact (IH _ _ _ _ lsz Hm Hs Hp Hl Hlo).
    + exact (IH _ _ _ _ lsz Hm Hs Hp Hl Hlo).
Qed.

(** Matching arguments make both loops of the sender well defined. *)
Lemma pack_defined (fmt : string) (args : list send_arg) :
  args_match fmt args ->
  exists sz, pack_size fmt args = Some sz /\
    forall mem pp, exists mem', pack_fields fmt args mem pp = Some (mem', pp + sz).
Proof.
  revert args. induction fmt as [|c rest IH]; intros args Hm; cbn in Hm.
  - subst args. exists 0. split; [reflexivity|]. intros mem pp. exists mem.
    cbn. do 2 f_equal. lia.
  - cbn [pack_size pack_fields].
    destruct (classify c); destruct args as [|[v|v|data] args']; try contradiction;
      try destruct Hm as [_ Hm];
      destruct (IH _ Hm) as (sz & -> & Hp); cbn;
      try (exists sz; split; [reflexivity|]; exact Hp).
    + exists (4 + sz). split; [reflexivity|]. intros mem pp.
      destruct (Hp (store32 mem pp v) (pp + 4)) as [mem' ->]. exists mem'.
      do 2 f_equal. lia.
    + exists (8 + sz). split; [reflexivity|]. intros mem pp.
      destruct (Hp (store64 mem pp v) (pp + 8)) as [mem' ->]. exists mem'.
      do 2 f_equal. lia.
    + exists (8 + Z.of_nat (length data) + sz). split; [reflexivity|]. intros mem pp.
      match goal with |- context [pack_fields rest args' ?m ?p] =>
        destruct (Hp m p) as [mem' ->] end.
      exists mem'. do 2 f_equal. lia.
    + exists (4 + sz). split; [reflexivity|]. intros mem pp.
      destruct (Hp mem (pp + 4)) as [mem' ->]. exists mem'. do 2 f_equal. lia.
    + exists (4 + sz). split; [reflexivity|]. intros mem pp.
      destruct (Hp mem (pp + 4)) as [mem' ->]. exists mem'. do 2 f_equal. lia.
    + exists (4 + sz). split; [reflexivity|]. intros mem pp.
      destruct (Hp mem (pp + 4)) as [mem' ->]. exists mem'. do 2 f_equal. lia.
    + exists (4 + sz). split; [reflexivity|]. intros mem pp.
      destruct (Hp mem (pp + 4)) as [mem' ->]. exists mem'. do 2 f_equal. lia.
Qed.

(** C5.  For every format string and every argument list that matches it
    (one argument per [I], [L] and [P], values within their C types):
    the sender's two loops are defined, and unpacking the payload they
    wrote, from the same address, with the same format and a length [psz]
    of at least the packed size, returns 0 and yields the original [I] and
    [L] values and, for each [P], the original length together with a
    pointer into the payload at which the original bytes are found. *)
Theorem pack_unpack_roundtrip
    (fmt : string) (args : list send_arg) (mem : memory) (payload : Z) :
  args_match fmt args ->
  exists sz mem',
    pack_size fmt args = Some sz /\
    pack_fields fmt args mem payload = Some (mem', payload + sz) /\
    forall psz, sz <= psz < 2 ^ 63 ->
      exists vals,
        urpc_unpack_payload mem' payload psz fmt = (0, vals) /\
        Forall2 (unpacks_to mem' payload (payload + sz)) args vals.
Proof.
  intros Hm. destruct (pack_defined fmt args Hm) as (sz & Hs & Hp).
  destruct (Hp mem payload) as [mem' Hp'].
  exists sz, mem'. split; [exact Hs|]. split; [exact Hp'|].
  intros psz Hpsz.
  pose proof (pack_size_nonneg _ _ _ Hs) as Hsz.
  destruct (pack_unpack_fields fmt args mem mem' payload payload (payload + sz) sz psz
              Hm Hs Hp' Hpsz ltac:(lia)) as (vals & Hu & Hf).
  exists vals. split; [|exact Hf].
  unfold urpc_unpack_payload. rewrite s64_small by lia. rewrite Hu.
  case_decide; [lia | reflexivity].
Qed.

(** X22.  End to end: a successful [urpc_generic_send] publishes a
    mailbox whose offset and length, handed to [urpc_unpack_payload] with
    the same format, give the arguments back. *)
Lemma generic_send_then_unpack `{cfg : urpc_config}
    (env : alloc_env) (uc uc' : urpc_comm_t) (data data' : memory)
    (cmd : Z) (fmt : string) (args : list send_arg) (req sz : Z) :
  comm_shape uc ->
  args_match fmt args ->
  pack_size fmt args = Some sz ->
  0 < sz <= 2 ^ 32 - 8 ->
  urpc_generic_send env uc data cmd fmt args = Some (req, uc', data') ->
  req <> - ENOMEM ->
  let m := mb (tq uc') !!! REQ2SLOT req in
  mb_cmd m = u8 cmd /\
  exists vals,
    urpc_unpack_payload data' (mb_offs m) (mb_len m) fmt = (0, vals) /\
    Forall2 (unpacks_to data' (mb_offs m) (mb_offs m + sz)) args vals.
Proof.
  intros [Hmb _] Hm Hs Hsz Hsend Hreq.
  unfold urpc_generic_send in Hsend. rewrite Hs in Hsend.
  destruct (ALIGN8B_bounds sz) as [Hal _].
  assert (Hsize : u64 (ALIGN8B (u64 sz)) = ALIGN8B sz).
  { unfold u64. rewrite (Z.mod_small sz) by lia. apply Z.mod_small. lia. }
  rewrite Hsize in Hsend. case_decide as Hnz; [|lia].
  assert (H32 : u32 (ALIGN8B sz) = ALIGN8B sz) by (apply Z.mod_small; lia).
  rewrite H32 in Hsend.
  destruct (_alloc_payload env uc (ALIGN8B sz)) as [[m0 uc1]|] eqn:Ha; [|discriminate].
  case_decide as Hz; [injection Hsend as <- _ _; contradiction|].
  destruct (alloc_payload_success _ _ _ _ _ Ha Hz) as (_ & Hlen & Hshape).
  destruct (pack_fields fmt args data (mb_offs m0)) as [[data1 pp']|] eqn:Hp;
    [|discriminate].
  destruct (urpc_put_cmd uc1 (mk_mb (u8 cmd) (mb_offs m0) (mb_len m0)))
    as [[req1 uc2]|] eqn:Hput; [|discriminate].
  injection Hsend as <- <- <-.
  apply urpc_put_cmd_returns in Hput as (_ & _ & Htq & _).
  intros m. subst m. rewrite Htq. cbn.
  rewrite list_lookup_total_insert_eq
    by (rewrite Hshape, Hmb; apply REQ2SLOT_lt).
  cbn. split; [reflexivity|].
  destruct (pack_fields_frame _ _ _ _ _ _ _ Hs Hp) as [-> _].
  destruct (pack_unpack_fields fmt args data data1 (mb_offs m0) (mb_offs m0)
              (mb_offs m0 + sz) sz (mb_len m0) Hm Hs Hp ltac:(lia) ltac:(lia))
    as (vals & Hu & Hf).
  exists vals. split; [|exact Hf].
  unfold urpc_unpack_payload. rewrite s64_small by lia. rewrite Hu.
  case_decide; [lia | reflexivity].
Qed.

Lemma bytes_required_nonneg (fmt : string) (mem : memory) (pp : Z) :
  0 <= bytes_required fmt mem pp.
Proof.
  revert pp. induction fmt as [|c rest IH]; intros pp; cbn; [lia|].
  destruct (classify c); try apply IH.
  - specialize (IH (pp + 4)). lia.
  - specialize (IH (pp + 8)). lia.
  - pose proof (load64_range mem pp). specialize (IH (pp + 8 + load64 mem pp)). lia.
  - specialize (IH (pp + 4)). lia.
Qed.

Lemma unpack_fields_short (fmt : string) (mem : memory) (pp lsz : Z) :
  - 2 ^ 63 <= lsz < 2 ^ 63 ->
  bytes_required fmt mem pp < 2 ^ 63 ->
  ((unpack_fields fmt mem pp lsz).2 < 0 <-> bytes_required fmt mem pp > lsz).
Proof.
  revert pp lsz. induction fmt as [|c rest IH]; intros pp lsz Hl Hr.
  - cbn. lia.
  - destruct (decide (lsz < 0)) as [Hneg|Hpos].
    + pose proof (bytes_required_nonneg (String c rest) mem pp).
      cbn [unpack_fields]. case_decide; [|lia]. cbn [snd]. lia.
    + rewrite unpack_fields_cons by lia. cbn [bytes_required] in Hr |- *.
      destruct (classify c); cbn [snd].
      * pose proof (bytes_required_nonneg rest mem (pp + 4)).
        rewrite IH by lia. lia.
      * pose proof (bytes_required_nonneg rest mem (pp + 8)).
        rewrite IH by lia. lia.
      * pose proof (load64_range mem pp).
        pose proof (bytes_required_nonneg rest mem (pp + 8 + load64 mem pp)).
        rewrite s64_small by lia. rewrite IH by lia. lia.
      * pose proof (bytes_required_nonneg rest mem (pp + 4)).
        rewrite IH by lia. lia.
      * apply IH; assumption.
Qed.

(** X16.  Where no length overflows a [long], the return code of
    [urpc_unpack_payload] is as documented: -1 exactly when the format
    asks for more bytes than [psz], 0 otherwise. *)
Lemma urpc_unpack_payload_short_iff (mem : memory) (payload psz : Z) (fmt : string) :
  0 <= psz < 2 ^ 63 ->
  bytes_required fmt mem payload < 2 ^ 63 ->
  ((urpc_unpack_payload mem payload psz fmt).1 = -1
     <-> bytes_required fmt mem payload > psz) /\
  ((urpc_unpack_payload mem payload psz fmt).1 = 0
     <-> bytes_required fmt mem payload <= psz).
Proof.
  intros Hp Hr. unfold urpc_unpack_payload. rewrite s64_small by lia.
  pose proof (unpack_fields_short fmt mem payload psz ltac:(lia) Hr) as H.
  destruct (unpack_fields fmt mem payload psz) as [vs l]. cbn [fst snd] in *.
  destruct H as [H1 H2]. case_decide as Hd.
  - specialize (H1 Hd). split; split; intros; try reflexivity; try lia; try discriminate.
  - assert (~ bytes_required fmt mem payload > psz) by (intros Hc; apply Hd, H2, Hc).
    split; split; intros; try reflexivity; try lia; try discriminate.
Qed.

(** ** The peer record *)

Lemma memset_length (block : list Z) (c : Z) (n : nat) :
  length (memset block c n) = length block.
Proof. unfold memset. rewrite length_app, length_replicate, length_drop. lia. Qed.

Lemma memset_beyond (block : list Z) (c : Z) (n i : nat) :
  (n <= i)%nat -> memset block c n !! i = block !! i.
Proof.
  intros Hi. unfold memset.
  destruct (decide (n <= length block)%nat) as [Hle|Hgt].
  - rewrite lookup_app_r by (rewrite length_replicate; lia).
    rewrite length_replicate, lookup_drop. f_equal. lia.
  - rewrite drop_ge, app_nil_r by lia.
    rewrite (lookup_ge_None_2 block) by lia.
    apply lookup_ge_None_2. rewrite length_replicate. lia.
Qed.

(** The record comes out zero-initialised only if everything after its
    first eight bytes was zero already. *)
Lemma peer_create_block_zero_iff
    (URPC_MAX_PEERS num_peers : Z) (block block' : list Z) :
  vh_urpc_peer_create_block URPC_MAX_PEERS num_peers (Some block) = Some block' ->
  (zero_initialized block' <-> zero_initialized (drop sizeof_pointer block)).
Proof.
  unfold vh_urpc_peer_create_block. case_decide; [discriminate|].
  intros Hc. injection Hc as <-. unfold zero_initialized, memset.
  rewrite Forall_app. split; [intros [_ Hd]; exact Hd|].
  intros Hd. split; [|exact Hd].
  apply Forall_replicate. reflexivity.
Qed.

(** ** The progress loop *)

(** X23.  A host-side command's submit function is called only in an
    iteration that finds the in-flight queue empty, and the command is
    then among the completions. *)
Lemma vh_runs_only_with_empty_in_flight
    (c c' : ThreadContext) (o : observation) (recvd sent : Z) (cmd : Command) :
  progress_iteration c o = ToCondition recvd sent c' ->
  isVH cmd = true ->
  ran c' = ran c ++ [cmd] ->
  in_flight (comq c') = [] /\ cmd ∈ completions (comq c').
Proof.
  assert (Hsub : forall r c0, ran c0 = ran c ->
            try_submit r c0 o = ToCondition recvd sent c' ->
            isVH cmd = true -> ran c' = ran c ++ [cmd] ->
            in_flight (comq c') = [] /\ cmd ∈ completions (comq c')).
  { intros r c0 Hran Htry Hvh Hrun. unfold try_submit in Htry.
    destruct (send_slot_free o); cbn in Htry.
    - unfold tryPopRequest in Htry.
      destruct (pending (comq c0)) as [|hd rest]; cbn in Htry.
      + injection Htry as _ _ <-. rewrite Hran in Hrun.
        apply (f_equal length) in Hrun. rewrite length_app in Hrun. cbn in Hrun. lia.
      + destruct (isVH hd) eqn:Ehd.
        * unfold emptyInFlight in Htry. cbn in Htry.
          destruct (in_flight (comq c0)) as [|f fl] eqn:Efl.
          -- injection Htry as _ _ <-. cbn in Hrun |- *. rewrite Hran in Hrun.
             apply app_inv_head in Hrun. injection Hrun as ->.
             split; [reflexivity|]. apply elem_of_app. right. left.
          -- injection Htry as _ _ <-. cbn in Hrun. rewrite Hran in Hrun.
             apply (f_equal length) in Hrun. rewrite length_app in Hrun.
             cbn in Hrun. lia.
        * case_decide; injection Htry as _ _ <-; cbn in Hrun; rewrite Hran in Hrun;
            apply app_inv_head in Hrun; injection Hrun as ->; congruence.
    - injection Htry as _ _ <-. rewrite Hran in Hrun.
      apply (f_equal length) in Hrun. rewrite length_app in Hrun. cbn in Hrun. lia. }
  intros Hit Hvh Hrun. unfold progress_iteration in Hit.
  destruct (reply o) as [rv|].
  - unfold popInFlight in Hit. destruct (in_flight (comq c)) as [|f fl]; [discriminate|].
    cbn in Hit. case_decide; [discriminate|].
    refine (Hsub _ _ _ Hit Hvh Hrun). reflexivity.
  - refine (Hsub _ _ _ Hit Hvh Hrun). reflexivity.
Qed.

(** A host-side command popped while a remote call is in flight is in no
    queue afterwards. *)
Lemma vh_popped_while_in_flight_is_dropped
    (vh busy : Command) (rest fl done : list Command) (st : ctx_state)
    (log : list Command) :
  isVH vh = true ->
  progress_iteration (mk_ctx (mk_comq (vh :: rest) (busy :: fl) done) st log)
                     (mk_obs None true)
  = ToCondition 0 0 (mk_ctx (mk_comq rest (busy :: fl) done) st log).
Proof. intros Hvh. unfold progress_iteration, try_submit. cbn. rewrite Hvh. reflexivity. Qed.

(** * Further properties *)

Section WaitingProperties.
Context {cfg : urpc_config}.

(** ** The ring as a FIFO *)

Lemma unread_put (uc uc' : urpc_comm_t) (m : urpc_mb_t) (req : Z) :
  tq_inv uc ->
  urpc_put_cmd uc m = Some (req, uc') ->
  unread (tq uc') = unread (tq uc) ++ [m].
Proof.
  intros ((Hmb & _) & Hcnt & Hlive) H.
  apply urpc_put_cmd_returns in H as (Hfree & -> & Htq & _).
  unfold counters_inv in Hcnt. unfold unread. rewrite Htq.
  cbn [last_put_req last_get_req mb set_last_put_req set_mb].
  replace (Z.to_nat (last_put_req (tq uc) + 1 - last_get_req (tq uc)))
    with (S (Z.to_nat (last_put_req (tq uc) - last_get_req (tq uc)))) by lia.
  rewrite seq_S, map_app. cbn [map]. f_equal.
  - apply map_ext_in. intros i Hi. apply in_seq in Hi.
    apply list_lookup_total_insert_ne. intros E.
    apply (Hlive (last_get_req (tq uc) + Z.of_nat i)); [lia|].
    rewrite <- E. exact Hfree.
  - f_equal.
    replace (last_get_req (tq uc) +
             Z.of_nat (1 + Z.to_nat (last_put_req (tq uc) - last_get_req (tq uc))))
      with (last_put_req (tq uc) + 1) by lia.
    apply list_lookup_total_insert_eq. rewrite Hmb. apply REQ2SLOT_lt.
Qed.

(** X1.  Puts append: from a state that satisfies the queue invariant, a
    sequence of completed [urpc_put_cmd] calls, each publishing a command,
    adds its mailboxes to the unread requests at the end and in order,
    leaves the earlier unread requests as they were, and numbers the
    requests consecutively. *)
Theorem puts_append_in_order (ms : list urpc_mb_t) (uc uc' : urpc_comm_t) :
  tq_inv uc -> -1 <= last_get_req (tq uc) ->
  Forall (fun m => mb_cmd m <> URPC_CMD_NONE) ms ->
  tq_run uc (map EvPut ms) = Some uc' ->
  unread (tq uc') = unread (tq uc) ++ ms /\
  last_put_req (tq uc') = last_put_req (tq uc) + Z.of_nat (length ms) /\
  last_get_req (tq uc') = last_get_req (tq uc).
Proof.
  revert uc. induction ms as [|m ms IH]; intros uc Hinv Hge Hms Hrun.
  - injection Hrun as <-. rewrite app_nil_r. cbn. split_and!; auto; lia.
  - cbn [map tq_run] in Hrun.
    destruct (tq_step uc (EvPut m)) as [uc1|] eqn:Hstep; [|discriminate].
    inversion Hms as [|? ? Hm Hms']; subst.
    destruct (tq_step_preserves uc (EvPut m) uc1 Hinv Hge Hm Hstep) as (Hinv1 & Hge1 & _).
    cbn in Hstep. destruct (urpc_put_cmd uc m) as [[req uc2]|] eqn:Hput; [|discriminate].
    cbn in Hstep. injection Hstep as ->.
    pose proof (unread_put uc uc1 m req Hinv Hput) as Hun.
    apply urpc_put_cmd_returns in Hput as (_ & Hreq & Htq & _).
    destruct (IH uc1 Hinv1 Hge1 Hms' Hrun) as (Iu & Ip & Ig).
    rewrite Iu, Ip, Ig, Hun, Htq, <- app_assoc.
    cbn [length last_put_req last_get_req set_last_put_req set_mb app].
    rewrite Nat2Z.inj_succ. split_and!; auto; lia.
Qed.

(** X2.  Gets take from the front: with the reader not ahead of the
    writer, [urpc_get_cmd] returns -1 and changes nothing exactly when no
    request is unread; otherwise it returns the oldest unread mailbox
    under the next request number and leaves the rest unread, touching
    neither the slots nor [last_put_req]. *)
Theorem urpc_get_cmd_takes_oldest (q : transfer_queue_t) (m : urpc_mb_t) :
  last_get_req q <= last_put_req q ->
  match unread q with
  | [] => urpc_get_cmd q m = (-1, m, q)
  | oldest :: rest =>
      exists q',
        urpc_get_cmd q m = (last_get_req q + 1, oldest, q') /\
        unread q' = rest /\
        mb q' = mb q /\ last_put_req q' = last_put_req q
  end.
Proof.
  intros Hcnt. unfold unread.
  destruct (Z.to_nat (last_put_req q - last_get_req q)) as [|n] eqn:En.
  - cbn. unfold urpc_get_cmd. case_decide; [lia | reflexivity].
  - cbn [seq map]. exists (set_last_get_req q (last_get_req q + 1)).
    split_and!; try reflexivity.
    + unfold urpc_get_cmd. case_decide; [|lia]. reflexivity.
    + cbn [last_get_req last_put_req set_last_get_req mb].
      replace (Z.to_nat (last_put_req q - (last_get_req q + 1))) with n by lia.
      rewrite <- (seq_shift n 1), map_map. apply map_ext. intros i. do 2 f_equal. lia.
Qed.

(** X3.  [urpc_get_req] looks a request up without disturbing the order:
    a request already fetched or not yet published gives -1 and no change;
    a request [last_get_req < req <= last_put_req] gives the mailbox at
    its place among the unread ones, and only the oldest unread request is
    removed by it, every later one staying unread for [urpc_get_cmd]. *)
Theorem urpc_get_req_looks_up (q : transfer_queue_t) (m : urpc_mb_t) (req : Z) :
  last_get_req q <= last_put_req q ->
  (req <= last_get_req q \/ last_put_req q < req ->
     urpc_get_req q m req = (-1, m, q)) /\
  (last_get_req q < req <= last_put_req q ->
     exists found q',
       urpc_get_req q m req = (req, found, q') /\
       unread q !! Z.to_nat (req - last_get_req q - 1) = Some found /\
       (req = last_get_req q + 1 -> unread q' = drop 1 (unread q)) /\
       (req <> last_get_req q + 1 -> q' = q)).
Proof.
  intros Hcnt. split.
  - intros Hout. unfold urpc_get_req. repeat case_decide; try reflexivity; lia.
  - intros Hin. unfold urpc_get_req.
    case_decide; [lia|]. case_decide; [|lia].
    eexists _, _. split; [reflexivity|]. split_and!.
    + unfold unread. rewrite list_lookup_fmap, lookup_seq_lt by lia.
      cbn. do 3 f_equal. lia.
    + intros ->. case_decide; [|lia].
      pose proof (urpc_get_cmd_cases q m) as [[_ E]|[E _]]; [|lia].
      unfold unread. cbn [last_get_req last_put_req set_last_get_req mb].
      destruct (Z.to_nat (last_put_req q - last_get_req q)) as [|n] eqn:En; [lia|].
      cbn [seq map drop].
      replace (Z.to_nat (last_put_req q - (last_get_req q + 1))) with n by lia.
      rewrite <- (seq_shift n 1), map_map. apply map_ext. intros i. do 2 f_equal. lia.
    + intros Hne. case_decide; [lia | reflexivity].
Qed.

(** ** Waiting for a request *)

Lemma remote_put_counters (q : transfer_queue_t) (m : urpc_mb_t) :
  last_get_req (remote_put q m) = last_get_req q /\
  last_put_req q <= last_put_req (remote_put q m) /\
  length (mb (remote_put q m)) = length (mb q).
Proof.
  unfold remote_put. case_decide; cbn; rewrite ?length_insert; split_and!; auto; lia.
Qed.

Lemma remote_puts_counters (ms : list urpc_mb_t) (q : transfer_queue_t) :
  last_get_req (fold_left remote_put ms q) = last_get_req q /\
  last_put_req q <= last_put_req (fold_left remote_put ms q) /\
  length (mb (fold_left remote_put ms q)) = length (mb q).
Proof.
  revert q. induction ms as [|m ms IH]; intros q; cbn; [split_and!; auto; lia|].
  destruct (IH (remote_put q m)) as (Ig & Ip & Il).
  destruct (remote_put_counters q m) as (Hg & Hp & Hl).
  split_and!; try congruence. lia.
Qed.

(** X4.  [urpc_get_cmd_timeout] on a queue whose reader is not ahead of
    the writer: it returns at the latest at the first poll at which the
    time is up; a result of -1 means the time was up at a poll that found
    nothing unread (and [m] is untouched); any other result is the next
    request number, fetched at the first poll that found a request,
    however small the timeout. *)
Theorem urpc_get_cmd_timeout_outcome
    (env : wait_env) (q : transfer_queue_t) (m : urpc_mb_t) (timeout_us : Z) :
  -1 <= last_get_req q <= last_put_req q ->
  (wait_deadline env timeout_us ->
     is_Some (urpc_get_cmd_timeout env q m timeout_us)) /\
  forall res m' q',
    urpc_get_cmd_timeout env q m timeout_us = Some (res, m', q') ->
    (res = -1 ->
       wait_deadline env timeout_us /\ m' = m /\
       last_get_req q' = last_get_req q /\ last_put_req q' = last_get_req q') /\
    (res <> -1 ->
       res = last_get_req q + 1 /\ last_get_req q' = res /\
       res <= last_put_req q' /\ m' = mb q' !!! REQ2SLOT res).
Proof.
  revert q. induction env as [|[arrived elapsed] env IH]; intros q Hcnt.
  - split; [intros (a & e & Hin & _); apply elem_of_nil in Hin as [] | discriminate].
  - destruct (remote_puts_counters arrived q) as (Hg & Hp & _).
    set (q1 := fold_left remote_put arrived q) in *.
    assert (Hcnt1 : -1 <= last_get_req q1 <= last_put_req q1) by lia.
    cbn [urpc_get_cmd_timeout]. fold q1.
    destruct (urpc_get_cmd_cases q1 m) as [[Hne E]|[Heq E]]; rewrite E.
    + case_decide as Hd; [lia|]. split; [eauto|].
      intros res m' q' H. injection H as <- <- <-. split; [lia|].
      intros _. cbn. split_and!; auto; lia.
    + case_decide as Hd.
      * destruct (IH q1 Hcnt1) as [Hret Hout]. split.
        -- intros (a & e & Hin & He). apply Hret.
           apply elem_of_cons in Hin as [Hin|Hin]; [injection Hin as -> ->; lia|].
           exists a, e. auto.
        -- intros res m' q' H. destruct (Hout res m' q' H) as [H1 H2]. split.
           ++ intros Hr. destruct (H1 Hr) as ((a & e & Hin & He) & Hm & Hgq & Hpq).
              split_and!; auto; try congruence.
              exists a, e. split; [right; exact Hin | exact He].
           ++ intros Hr. destruct (H2 Hr) as (Hres & Hgq & Hpq & Hm).
              split_and!; auto. congruence.
      * split; [eauto|]. intros res m' q' H. injection H as <- <- <-. split.
        -- intros _. split_and!; auto.
           exists arrived, elapsed. split; [left|].
           destruct (Z_lt_le_dec elapsed timeout_us); [exfalso; apply Hd; auto | assumption].
        -- intros Hc. contradiction.
Qed.

Lemma urpc_get_req_result (q : transfer_queue_t) (m : urpc_mb_t) (req : Z) :
  (urpc_get_req q m req = (-1, m, q) /\
   (req <= last_get_req q \/ last_put_req q < req)) \/
  (exists q', urpc_get_req q m req = (req, mb q !!! REQ2SLOT req, q') /\
     last_get_req q < req <= last_put_req q /\
     mb q' = mb q /\ last_put_req q' = last_put_req q /\
     last_get_req q <= last_get_req q' <= req).
Proof.
  unfold urpc_get_req. case_decide; [left; split; [reflexivity | lia]|].
  case_decide; [|left; split; [reflexivity | lia]].
  right. eexists. split; [reflexivity|]. case_decide; cbn; split_and!; auto; lia.
Qed.

(** X5.  [urpc_recv_req_timeout] for a request number [req >= 0]: it
    returns at the latest at the first poll at which the time is up; it
    reports the request found only if it had not been fetched before, and
    then stores the payload pointer and length of the mailbox it read from
    the request's slot; when it reports the request not found the time is
    up, and [m], the payload pointer and the length are left as they
    were.  A request already fetched is never found again. *)
Theorem urpc_recv_req_timeout_outcome
    (env : wait_env) (q : transfer_queue_t) (m : urpc_mb_t)
    (req timeout_us : Z) (payload : option Z) (plen : Z) :
  0 <= req ->
  (wait_deadline env timeout_us ->
     is_Some (urpc_recv_req_timeout env q m req timeout_us payload plen)) /\
  forall found m' q' payload' plen',
    urpc_recv_req_timeout env q m req timeout_us payload plen
      = Some (found, m', q', payload', plen') ->
    (found = true ->
       last_get_req q < req <= last_put_req q' /\
       m' = mb q' !!! REQ2SLOT req /\
       (payload', plen') = set_recv_payload m') /\
    (found = false ->
       wait_deadline env timeout_us /\
       m' = m /\ payload' = payload /\ plen' = plen).
Proof.
  intros Hreq.
  assert (Hloop : forall env q,
    (wait_deadline env timeout_us -> is_Some (recv_req_wait env q m req timeout_us)) /\
    forall res m' q', recv_req_wait env q m req timeout_us = Some (res, m', q') ->
      (res = req /\ last_get_req q < req <= last_put_req q' /\
       m' = mb q' !!! REQ2SLOT req) \/
      (res = -1 /\ wait_deadline env timeout_us /\ m' = m)).
  { clear q env. induction env as [|[arrived elapsed] env IH]; intros q.
    - split; [intros (a & e & Hin & _); apply elem_of_nil in Hin as [] | discriminate].
    - destruct (remote_puts_counters arrived q) as (Hg & Hp & _).
      set (q1 := fold_left remote_put arrived q) in *.
      cbn [recv_req_wait]. fold q1.
      destruct (urpc_get_req_result q1 m req)
        as [[E Hout]|(q2 & E & Hin & Emb & Eput & Eget)]; rewrite E.
      + case_decide as Hd.
        * destruct (IH q1) as [Hret Hres]. split.
          -- intros (a & e & Hi & He). apply Hret.
             apply elem_of_cons in Hi as [Hi|Hi]; [injection Hi as -> ->; lia|].
             exists a, e. auto.
          -- intros res m' q' H. destruct (Hres res m' q' H)
               as [(Hr & Hrange & Hm)|(Hr & (a & e & Hi & He) & Hm)].
             ++ left. split_and!; auto; lia.
             ++ right. split_and!; auto. exists a, e. split; [right; exact Hi | exact He].
        * split; [eauto|]. intros res m' q' H. injection H as <- <- <-.
          right. split_and!; auto. exists arrived, elapsed. split; [left|].
          destruct (Z_lt_le_dec elapsed timeout_us); [exfalso; apply Hd; auto | assumption].
      + case_decide as Hd; [lia|]. split; [eauto|].
        intros res m' q' H. injection H as <- <- <-.
        left. rewrite Emb, Eput. split_and!; auto; lia. }
  destruct (Hloop env q) as [Hret Hres]. unfold urpc_recv_req_timeout. split.
  - intros Hd. destruct (Hret Hd) as [[[res m1] q1] ->].
    case_decide; [destruct (set_recv_payload m1)|]; eauto.
  - intros found m' q' payload' plen' H.
    destruct (recv_req_wait env q m req timeout_us) as [[[res m1] q1]|] eqn:Hw;
      [|discriminate].
    destruct (Hres res m1 q1 eq_refl) as [(Hr & Hrange & Hm)|(Hr & Hdl & Hm)].
    + case_decide; [|contradiction].
      destruct (set_recv_payload m1) as [pl ln] eqn:Es.
      injection H as <- <- <- <- <-. split; [|discriminate].
      intros _. split_and!; auto; try lia.
    + case_decide; [lia|]. injection H as <- <- <- <- <-.
      split; [discriminate|]. intros _. split_and!; auto.
Qed.

End WaitingProperties.

(** ** The handler table *)

Section HandlerProperties.
Context {W : Type}.
Variable URPC_MAX_HANDLERS : Z.
Implicit Types (up : @urpc_peer_t W).

Lemma do_handler_op_frame up (op : handler_op) (cmd : Z) :
  let up' := do_handler_op URPC_MAX_HANDLERS up op in
  recv up' = recv up /\ world up' = world up /\
  (cmd <= 0 \/ cmd > URPC_MAX_HANDLERS -> handler up' cmd = handler up cmd) /\
  (~ unregisters cmd op -> is_Some (handler up cmd) ->
     handler up' cmd = handler up cmd).
Proof.
  destruct op as [c h | c]; cbn.
  - unfold urpc_register_handler. case_decide as Hr; cbn; [auto|].
    destruct (handler up c) eqn:Ec; cbn; [auto|].
    split_and!; auto.
    + intros Hout. case_decide; [subst; lia | reflexivity].
    + intros _ [f Hf]. case_decide; [subst; congruence | reflexivity].
  - unfold urpc_unregister_handler. case_decide as Hr; cbn; [auto|].
    split_and!; auto.
    + intros Hout. case_decide; [subst; lia | reflexivity].
    + intros Hne _. case_decide; [subst; contradiction | reflexivity].
Qed.

(** X6.  Whatever sequence of [urpc_register_handler] and
    [urpc_unregister_handler] calls is made, with whatever arguments: the
    entries of codes outside [1 .. URPC_MAX_HANDLERS] are never written
    (code 0, [URPC_CMD_NONE], can get no handler), and a handler that is
    installed stays the one installed for its code until that code is
    unregistered: registering never replaces it. *)
Theorem handler_table_ops (ops : list handler_op) up (cmd : Z) :
  let up' := fold_left (do_handler_op URPC_MAX_HANDLERS) ops up in
  recv up' = recv up /\ world up' = world up /\
  (cmd <= 0 \/ cmd > URPC_MAX_HANDLERS -> handler up' cmd = handler up cmd) /\
  (forall func, handler up cmd = Some func ->
     Forall (fun op => ~ unregisters cmd op) ops ->
     handler up' cmd = Some func).
Proof.
  revert up. induction ops as [|op ops IH]; intros up; cbn.
  - auto.
  - destruct (IH (do_handler_op URPC_MAX_HANDLERS up op)) as (Ir & Iw & Iout & Ikeep).
    destruct (do_handler_op_frame up op cmd) as (Hr & Hw & Hout & Hkeep).
    cbv zeta in *. split_and!; try congruence.
    + intros Hc. rewrite Iout, Hout; auto.
    + intros func Hf Hall. inversion Hall as [|? ? Hop Hops]; subst.
      apply Ikeep; [|exact Hops]. rewrite Hkeep; eauto.
Qed.

(** X7.  For a code in [1 .. URPC_MAX_HANDLERS]: after
    [urpc_unregister_handler], which returns 0 whether or not a handler was
    installed, [urpc_register_handler] succeeds, returns the code and
    installs the new handler, all other entries being as before; a second
    registration of the code is then refused with [-EEXIST] and changes
    nothing, unless the handler installed was the null pointer, which
    registers successfully but leaves the code free. *)
Theorem register_after_unregister up (cmd : Z)
    (h h2 : option (@urpc_handler_func W)) :
  1 <= cmd <= URPC_MAX_HANDLERS ->
  let r0 := urpc_unregister_handler URPC_MAX_HANDLERS up cmd in
  let r1 := urpc_register_handler URPC_MAX_HANDLERS r0.2 cmd h in
  let r2 := urpc_register_handler URPC_MAX_HANDLERS r1.2 cmd h2 in
  r0.1 = 0 /\ r1.1 = cmd /\
  handler r1.2 cmd = h /\
  (forall c, c <> cmd -> handler r1.2 c = handler up c) /\
  (is_Some h -> r2.1 = - EEXIST /\ r2.2 = r1.2) /\
  (h = None -> r2.1 = cmd /\ handler r2.2 cmd = h2).
Proof.
  intros Hcmd. cbv zeta.
  assert (E0 : urpc_unregister_handler URPC_MAX_HANDLERS up cmd
               = (0, set_handler up cmd None))
    by (unfold urpc_unregister_handler; case_decide; [lia | reflexivity]).
  assert (E1 : urpc_register_handler URPC_MAX_HANDLERS (set_handler up cmd None) cmd h
               = (cmd, set_handler (set_handler up cmd None) cmd h)).
  { unfold urpc_register_handler. case_decide; [lia|].
    cbn [handler set_handler]. rewrite decide_True by reflexivity. reflexivity. }
  rewrite E0. cbn [fst snd]. rewrite E1. cbn [fst snd].
  assert (Eh : handler (set_handler (set_handler up cmd None) cmd h) cmd = h)
    by (cbn [handler set_handler]; rewrite decide_True by reflexivity; reflexivity).
  split_and!; auto.
  - intros c Hc. cbn [handler set_handler]. rewrite !decide_False by exact Hc.
    reflexivity.
  - intros [f ->]. unfold urpc_register_handler. case_decide; [lia|].
    rewrite Eh. auto.
  - intros ->. unfold urpc_register_handler. case_decide; [lia|].
    rewrite Eh. cbn [fst snd handler set_handler].
    rewrite decide_True by reflexivity. auto.
Qed.

End HandlerProperties.

(** ** What inbound progress dispatches *)

Section DispatchProperties.
Context {cfg : urpc_config} {W : Type}.
Implicit Types (up : @urpc_peer_t W).

Lemma unread_cons (q : transfer_queue_t) :
  last_get_req q < last_put_req q ->
  unread q = mb q !!! REQ2SLOT (last_get_req q + 1) :: drop 1 (unread q).
Proof.
  intros Hlt. unfold unread.
  destruct (Z.to_nat (last_put_req q - last_get_req q)) as [|n] eqn:En; [lia|].
  cbn [seq map drop]. do 3 f_equal.
Qed.

Lemma unread_nil (q : transfer_queue_t) :
  last_put_req q <= last_get_req q -> unread q = [].
Proof.
  intros Hle. unfold unread.
  replace (Z.to_nat (last_put_req q - last_get_req q)) with O by lia. reflexivity.
Qed.

Lemma unread_after_done (q : transfer_queue_t) (m1 : urpc_mb_t) :
  last_get_req q < last_put_req q <= last_get_req q + Z.of_nat URPC_LEN_MB ->
  unread (set_mb (set_last_get_req q (last_get_req q + 1))
                 (REQ2SLOT (last_get_req q + 1)) m1)
  = drop 1 (unread q).
Proof.
  intros Hcnt. unfold unread.
  cbn [last_get_req last_put_req set_last_get_req set_mb mb].
  destruct (Z.to_nat (last_put_req q - last_get_req q)) as [|n] eqn:En; [lia|].
  replace (Z.to_nat (last_put_req q - (last_get_req q + 1))) with n by lia.
  cbn [seq map drop]. rewrite <- (seq_shift n 1), map_map.
  apply map_ext_in. intros i Hi. apply in_seq in Hi.
  replace (last_get_req q + 1 + Z.of_nat i) with (last_get_req q + Z.of_nat (S i)) by lia.
  apply list_lookup_total_insert_ne. apply REQ2SLOT_apart. lia.
Qed.

Lemma dispatch_cons (handler : Z -> option (@urpc_handler_func W)) (w : W)
    (first : Z) (m : urpc_mb_t) (rest : list urpc_mb_t) :
  dispatch handler w first (m :: rest) =
  let r1 := dispatch handler w first [m] in
  let r2 := dispatch handler r1.1 (first + 1) rest in
  (r2.1, r1.2 ++ r2.2).
Proof.
  cbn. destruct (set_recv_payload m) as [payload plen].
  destruct (handler (mb_cmd m)) as [func|].
  - destruct (func w m (first + 1) payload plen) as [[err m'] w1]. cbn.
    destruct (dispatch handler w1 (first + 1) rest) as [w2 calls]. reflexivity.
  - cbn. destruct (dispatch handler w (first + 1) rest) as [w2 calls]. reflexivity.
Qed.

Lemma recv_one_dispatch up (q : transfer_queue_t) (m : urpc_mb_t) (first : Z) :
  (world (recv_one up q m (first + 1)).1.1,
   handler_calls (recv_one up q m (first + 1)).2)
  = dispatch (handler up) (world up) first [m].
Proof.
  unfold recv_one. cbn [dispatch]. destruct (set_recv_payload m) as [payload plen].
  destruct (handler up (mb_cmd m)) as [func|].
  - destruct (func (world up) m (first + 1) payload plen) as [[err m'] w1]. cbn.
    case_decide; reflexivity.
  - reflexivity.
Qed.

Lemma recv_loop_dispatch (budget : nat) up (m : urpc_mb_t) :
  length (mb (tq (recv up))) = URPC_LEN_MB ->
  counters_inv (tq (recv up)) -> -1 <= last_get_req (tq (recv up)) ->
  let r := recv_loop budget up m in
  (world r.1.2, handler_calls r.2)
    = dispatch (handler up) (world up) (last_get_req (tq (recv up)))
               (take budget (unread (tq (recv up)))) /\
  unread (tq (recv r.1.2)) = drop budget (unread (tq (recv up))).
Proof.
  revert up m. induction budget as [|budget IH]; intros up m Hlen Hcnt Hge r.
  - subst r. cbn. split; reflexivity.
  - subst r. cbn [recv_loop]. unfold counters_inv in Hcnt.
    set (first := last_get_req (tq (recv up))) in *.
    destruct (urpc_get_cmd_cases (tq (recv up)) m) as [[Hne E]|[Heq E]]; rewrite E.
    + fold first. case_decide as Hneg; [lia|].
      pose proof (recv_one_dispatch up (set_last_get_req (tq (recv up)) (first + 1))
                    (mb (tq (recv up)) !!! REQ2SLOT (first + 1)) first) as Hd.
      destruct (recv_one_spec up (set_last_get_req (tq (recv up)) (first + 1))
                  (mb (tq (recv up)) !!! REQ2SLOT (first + 1)) (first + 1))
        as (m1 & _ & Htq & _ & Hh).
      destruct (recv_one up (set_last_get_req (tq (recv up)) (first + 1))
                  (mb (tq (recv up)) !!! REQ2SLOT (first + 1)) (first + 1))
        as [[up1 m2] log1].
      cbn [fst snd] in Htq, Hd, Hh.
      assert (Hlen1 : length (mb (tq (recv up1))) = URPC_LEN_MB)
        by (rewrite Htq; cbn; rewrite length_insert; exact Hlen).
      assert (Hcnt1 : counters_inv (tq (recv up1)))
        by (unfold counters_inv; rewrite Htq; cbn; fold first; lia).
      assert (Hge1 : -1 <= last_get_req (tq (recv up1)))
        by (rewrite Htq; cbn; lia).
      specialize (IH up1 m2 Hlen1 Hcnt1 Hge1). cbv zeta in IH.
      destruct (recv_loop budget up1 m2) as [[done1 up2] log2].
      cbn [fst snd] in IH |- *. destruct IH as [Iw Iu].
      assert (Hun : unread (tq (recv up1)) = drop 1 (unread (tq (recv up))))
        by (rewrite Htq; apply unread_after_done; fold first; lia).
      rewrite Hun in Iw, Iu. rewrite Htq in Iw. cbn [last_get_req set_mb set_last_get_req] in Iw.
      rewrite Hh in Iw.
      rewrite (unread_cons (tq (recv up))) at 1 2 by (fold first; lia).
      fold first. cbn [take]. rewrite dispatch_cons. cbv zeta.
      rewrite <- Hd. cbn [fst snd]. rewrite <- Iw. cbn [fst snd].
      unfold handler_calls. rewrite omap_app. split; [reflexivity|].
      rewrite Iu. reflexivity.
    + case_decide as Hneg; [|lia]. cbn [fst snd].
      rewrite unread_nil by lia. rewrite take_nil, drop_nil. split; reflexivity.
Qed.

(** X8.  [urpc_recv_progress] hands the unread requests to the handlers
    in the order they were published, the oldest first, each once and
    under its own request number, a request whose code has no handler
    being passed over; it stops after [ncmds] of them, and the requests it
    did not reach stay unread, in order and unchanged. *)
Theorem urpc_recv_progress_dispatches up (ncmds : Z) :
  comm_shape (recv up) ->
  counters_inv (tq (recv up)) -> -1 <= last_get_req (tq (recv up)) ->
  let r := urpc_recv_progress up ncmds in
  (world r.1.2, handler_calls r.2)
    = dispatch (handler up) (world up) (last_get_req (tq (recv up)))
               (take (Z.to_nat ncmds) (unread (tq (recv up)))) /\
  unread (tq (recv r.1.2)) = drop (Z.to_nat ncmds) (unread (tq (recv up))).
Proof.
  intros [Hlen _] Hcnt Hge r.
  pose proof (recv_loop_dispatch (Z.to_nat ncmds) up mb_zero Hlen Hcnt Hge) as H.
  cbv zeta in H. subst r. unfold urpc_recv_progress.
  destruct (recv_loop (Z.to_nat ncmds) up mb_zero) as [[done up1] log].
  exact H.
Qed.

Lemma recv_timeout_loop_spec (env : poll_env) up
    (ncmds timeout_us done_ts total : Z) up' (total' : Z) :
  length (mb (tq (recv up))) = URPC_LEN_MB ->
  -1 <= last_get_req (tq (recv up)) <= last_put_req (tq (recv up)) ->
  recv_timeout_loop env up ncmds timeout_us done_ts total = Some (up', total') ->
  last_get_req (tq (recv up')) = last_get_req (tq (recv up)) + (total' - total) /\
  total <= total' /\
  (0 < ncmds -> last_put_req (tq (recv up')) = last_get_req (tq (recv up'))) /\
  handler up' = handler up /\
  exists arrived now elapsed, (arrived, now, elapsed) ∈ env /\ timeout_us <= elapsed.
Proof.
  revert up done_ts total.
  induction env as [|[[arrived now] elapsed] env IH]; intros up done_ts total Hlen Hcnt H;
    [discriminate|].
  cbn [recv_timeout_loop] in H.
  destruct (remote_puts_counters arrived (tq (recv up))) as (Hg & Hp & Hl).
  set (up0 := mk_peer (set_tq (recv up) (fold_left remote_put arrived (tq (recv up))))
                      (handler up) (world up)) in *.
  assert (Etq : tq (recv up0) = fold_left remote_put arrived (tq (recv up)))
    by reflexivity.
  assert (Hlen0 : length (mb (tq (recv up0))) = URPC_LEN_MB) by (rewrite Etq; congruence).
  assert (Hcnt0 : -1 <= last_get_req (tq (recv up0)) <= last_put_req (tq (recv up0)))
    by (rewrite Etq; lia).
  pose proof (recv_loop_spec (Z.to_nat ncmds) up0 mb_zero Hlen0 Hcnt0) as Hs.
  cbv zeta in Hs. unfold urpc_recv_progress in H.
  destruct (recv_loop (Z.to_nat ncmds) up0 mb_zero) as [[done up1] log].
  cbn [fst snd] in Hs. destruct Hs as (Hd & Hg1 & Hp1 & Hl1 & _ & _ & _ & Hh1).
  rewrite Etq in Hd, Hg1, Hp1.
  case_decide as Hgo.
  - destruct (IH up1 _ _ Hl1 ltac:(lia) H) as (Ig & It & Ie & Ih & (a & n & e & Hin & He)).
    refine (conj _ (conj _ (conj _ (conj _ _)))).
    + lia.
    + lia.
    + exact Ie.
    + rewrite Ih, Hh1. reflexivity.
    + exists a, n, e. split; [right; exact Hin | exact He].
  - injection H as <- <-. refine (conj _ (conj _ (conj _ (conj _ _)))).
    + lia.
    + lia.
    + intros Hn. destruct (decide (Z.of_nat done = 0)) as [Hz|Hnz].
      * lia.
      * exfalso. apply Hgo. left. reflexivity.
    + rewrite Hh1. reflexivity.
    + exists arrived, now, elapsed. split; [left|].
      destruct (Z_lt_le_dec elapsed timeout_us); [exfalso; apply Hgo; auto | assumption].
Qed.

(** X9.  When [urpc_recv_progress_timeout] leaves its loop, the time was
    up at one of its polls, the receive counter has advanced by exactly
    the number of requests processed, the handler table is as before, and,
    for a positive [ncmds], nothing is left unread: requests that arrive
    while it runs are all processed before it gives up. *)
Theorem urpc_recv_progress_timeout_drains
    (env : poll_env) up (ncmds timeout_us : Z) (r : int_result) up' (total : Z) :
  length (mb (tq (recv up))) = URPC_LEN_MB ->
  -1 <= last_get_req (tq (recv up)) <= last_put_req (tq (recv up)) ->
  urpc_recv_progress_timeout env up ncmds timeout_us = Some (r, up', total) ->
  0 <= total /\
  last_get_req (tq (recv up')) = last_get_req (tq (recv up)) + total /\
  (0 < ncmds -> last_put_req (tq (recv up')) = last_get_req (tq (recv up'))) /\
  handler up' = handler up /\
  exists arrived now elapsed, (arrived, now, elapsed) ∈ env /\ timeout_us <= elapsed.
Proof.
  intros Hlen Hcnt H. unfold urpc_recv_progress_timeout in H.
  destruct (recv_timeout_loop env up ncmds timeout_us 0 0) as [[up1 total1]|] eqn:E;
    [|discriminate].
  injection H as _ <- <-.
  destruct (recv_timeout_loop_spec _ _ _ _ _ _ _ _ Hlen Hcnt E) as (Hg & Ht & He & Hh & Hd).
  split_and!; auto; lia.
Qed.

End DispatchProperties.

(** ** The allocator within the ring *)

Section RingProperties.
Context {cfg : urpc_config}.

Lemma u32_small (x : Z) : 0 <= x < 2 ^ 32 -> u32 x = x.
Proof. intros H. unfold u32. apply Z.mod_small. exact H. Qed.



Lemma ALIGN8B_aligned (x : Z) : x mod 8 = 0 -> ALIGN8B x = x.
Proof.
  intros Hx. rewrite ALIGN8B_div.
  pose proof (Z.div_mod x 8 ltac:(lia)) as Hd. rewrite Hx in Hd.
  replace (x + 7) with (7 + (x / 8) * 8) by lia.
  rewrite Z.div_add by lia. change (7 / 8) with 0. lia.
Qed.

Lemma ml_ok_zero : ml_ok ml_zero.
Proof.
  pose proof URPC_DATA_BUFF_LEN_range. unfold ml_ok, ml_zero. cbn [ml_offs ml_len].
  change (ALIGN8B (0 + 0)) with 0. lia.
Qed.

Lemma ml_ok_lookup (uc : urpc_comm_t) (slot : nat) :
  Forall ml_ok (mlist uc) -> ml_ok (mlist uc !!! slot).
Proof.
  intros Hall. rewrite list_lookup_total_alt.
  destruct (mlist uc !! slot) as [ml|] eqn:E.
  - exact (Forall_lookup_1 _ _ _ _ Hall E).
  - exact ml_ok_zero.
Qed.

Lemma gc_slot_ring (uc : urpc_comm_t) (slot : nat) :
  ring_inv uc -> ring_inv (gc_slot uc slot).
Proof.
  intros (Hb & He & Hall). pose proof URPC_DATA_BUFF_LEN_range as HD.
  pose proof ml_ok_zero as Hz.
  pose proof (ml_ok_lookup uc slot Hall) as (Ho & Hl & Ha).
  unfold gc_slot. case_decide as Hg; [|exact (conj Hb (conj He Hall))].
  destruct (ALIGN8B_bounds (ml_offs (mlist uc !!! slot) + ml_len (mlist uc !!! slot)))
    as [Hal _].
  case_decide as Hlt; unfold ring_inv; cbn.
  - rewrite (u32_small (_ + _)) by lia. rewrite u32_small by lia.
    split_and!; try lia; apply Forall_insert; assumption.
  - split_and!; try lia; apply Forall_insert; assumption.
Qed.

Lemma gc_fold_ring (order : list nat) (uc : urpc_comm_t) :
  ring_inv uc -> ring_inv (fold_left gc_slot order uc).
Proof.
  revert uc. induction order as [|a rest IH]; intros uc H; [exact H|].
  cbn. apply IH, gc_slot_ring, H.
Qed.

Lemma gc_wrap_ring (uc : urpc_comm_t) (last_slot : nat) :
  URPC_DATA_BUFF_LEN mod 8 = 0 ->
  ring_inv uc -> ring_inv (gc_wrap uc last_slot).
Proof.
  intros H8 (Hb & He & Hall). pose proof URPC_DATA_BUFF_LEN_range as HD.
  pose proof (ml_ok_lookup uc last_slot Hall) as (Ho & Hl & Ha).
  unfold gc_wrap. case_decide as Hend; [|exact (conj Hb (conj He Hall))].
  unfold ring_inv. cbn. split_and!; try lia. apply Forall_insert; [exact Hall|].
  destruct (ALIGN8B_bounds (ml_offs (mlist uc !!! last_slot) + ml_len (mlist uc !!! last_slot)))
    as [Hal _].
  case_decide as Hz; unfold ml_ok; cbn.
  - rewrite u32_small by lia.
    replace (free_begin uc + (free_end uc - free_begin uc)) with URPC_DATA_BUFF_LEN by lia.
    rewrite ALIGN8B_aligned by exact H8. lia.
  - rewrite u32_small by lia.
    replace (ml_offs (mlist uc !!! last_slot) + (free_end uc - ml_offs (mlist uc !!! last_slot)))
      with URPC_DATA_BUFF_LEN by lia.
    rewrite ALIGN8B_aligned by exact H8. lia.
Qed.

Lemma gc_buffer_ring (uc : urpc_comm_t) :
  URPC_DATA_BUFF_LEN mod 8 = 0 ->
  ring_inv uc -> ring_inv (snd (_gc_buffer uc)).
Proof.
  intros H8 H. unfold _gc_buffer. cbn. apply gc_fold_ring, gc_wrap_ring; assumption.
Qed.

Lemma alloc_wait_ring (env : alloc_env) (uc : urpc_comm_t) (asize size : Z) w :
  URPC_DATA_BUFF_LEN mod 8 = 0 ->
  ring_inv uc ->
  alloc_wait env uc asize size = Some w ->
  ring_inv (match w with WaitTimeout u | WaitExit u => u end).
Proof.
  intros H8. revert uc. induction env as [|[freed elapsed] env IH]; intros uc Hinv H.
  - rewrite alloc_wait_nil in H. case_decide; [discriminate|]. injection H as <-.
    exact Hinv.
  - rewrite alloc_wait_cons in H.
    assert (Hg : ring_inv (snd (_gc_buffer (peer_done uc freed))))
      by (apply gc_buffer_ring; [exact H8 | exact Hinv]).
    case_decide as Hlt; [|injection H as <-; exact Hinv].
    case_decide as Hsmall; [|injection H as <-; exact Hg].
    case_decide as Hlate; [injection H as <-; exact Hg|].
    exact (IH _ Hg H).
Qed.



(** X11.  With the ring length a multiple of eight and the free interval
    and the bookkeeping entries inside the ring, [_alloc_payload] keeps
    them inside the ring whatever the receiver completes meanwhile; a
    block it hands out has the length asked for and ends, rounded up to
    eight bytes, at the new [free_begin], inside the ring (for a ring
    that the 24-bit offset field can address); and a request for more
    bytes than the ring has is never granted: the call returns 0. *)
Theorem alloc_payload_within_ring
    (env : alloc_env) (uc : urpc_comm_t) (size : Z) r uc' :
  URPC_DATA_BUFF_LEN mod 8 = 0 ->
  ring_inv uc ->
  0 <= size <= 2 ^ 32 - 8 - URPC_DATA_BUFF_LEN ->
  _alloc_payload env uc size = Some (r, uc') ->
  ring_inv uc' /\
  (URPC_DATA_BUFF_LEN < size -> r = mb_zero) /\
  (r <> mb_zero ->
     mb_cmd r = 0 /\ mb_len r = size /\
     (URPC_DATA_BUFF_LEN <= 2 ^ 24 -> 0 < size ->
        mb_offs r + ALIGN8B size = free_begin uc')).
Proof.
  intros H8 Hinv Hsize H. pose proof URPC_DATA_BUFF_LEN_range as HD.
  destruct (ALIGN8B_bounds size) as [Hal _].
  unfold _alloc_payload in H. rewrite (u32_small (ALIGN8B size)) in H by lia.
  destruct (alloc_wait env uc (ALIGN8B size) size) as [w|] eqn:Hw; [|discriminate].
  pose proof (alloc_wait_ring env uc _ _ w H8 Hinv Hw) as Hinv1.
  destruct w as [uc1|uc1].
  - injection H as <- <-. split_and!; auto. intros Hc; contradiction.
  - destruct Hinv1 as (Hb & He & Hall).
    rewrite (u32_small (free_begin uc1 + ALIGN8B size)) in H by lia.
    case_decide as Hchk; injection H as <- <-.
    + split_and!; auto; [exact (conj Hb (conj He Hall))|]. intros Hc; contradiction.
    + split_and!.
      * unfold ring_inv. cbn. split_and!; try lia. exact Hall.
      * intros Hbig. lia.
      * intros _. cbn. split_and!; auto.
        intros H24 Hpos. unfold u24. rewrite Z.mod_small by lia. reflexivity.
Qed.

(** ** Sends within the ring *)





End RingProperties.

(** ** What a send publishes *)

Section SendProperties.
Context {cfg : urpc_config}.







End SendProperties.

(** ** The progress loop: order, early exit, termination *)

Lemma advances_refl (c : ThreadContext) :
  Forall (fun cmd => isVH cmd = false) (in_flight (comq c)) -> advances c c.
Proof.
  intros H. exists [], []. cbn. rewrite !app_nil_r. auto.
Qed.

Lemma advances_trans (c1 c2 c3 : ThreadContext) :
  advances c1 c2 -> advances c2 c3 -> advances c1 c3.
Proof.
  intros (p1 & n1 & Hp1 & Hc1 & Hf1 & _ & Hs1) (p2 & n2 & Hp2 & Hc2 & Hf2 & Hr2 & Hs2).
  exists (p1 ++ p2), (n1 ++ n2). split_and!.
  - rewrite Hp1, Hp2, app_assoc. reflexivity.
  - rewrite Hc2, Hc1, app_assoc. reflexivity.
  - rewrite !filter_app, app_assoc, Hf1, <- !app_assoc, Hf2. reflexivity.
  - exact Hr2.
  - congruence.
Qed.

Lemma filter_single (f : Command -> bool) (cmd : Command) :
  filter f [cmd] = if f cmd then [cmd] else [].
Proof.
  destruct (f cmd) eqn:E.
  - rewrite filter_cons_True by (rewrite E; exact I). reflexivity.
  - rewrite filter_cons_False by (rewrite E; exact id). reflexivity.
Qed.

Lemma try_submit_advances (recvd : Z) (c : ThreadContext) (o : observation)
    (r s : Z) (c' : ThreadContext) :
  Forall (fun cmd => isVH cmd = false) (in_flight (comq c)) ->
  try_submit recvd c o = ToCondition r s c' ->
  advances c c' /\ r = recvd /\ 0 <= s <= 1 /\
  (s = 1 -> 2 * Z.of_nat (length (pending (comq c'))) + Z.of_nat (length (in_flight (comq c')))
            < 2 * Z.of_nat (length (pending (comq c))) + Z.of_nat (length (in_flight (comq c)))) /\
  (s = 0 -> 2 * Z.of_nat (length (pending (comq c'))) + Z.of_nat (length (in_flight (comq c')))
            <= 2 * Z.of_nat (length (pending (comq c))) + Z.of_nat (length (in_flight (comq c)))).
Proof.
  intros Hrem H. unfold try_submit in H.
  destruct (send_slot_free o); cbn [negb] in H;
    [|injection H as <- <- <-; split_and!; auto using advances_refl; lia].
  unfold tryPopRequest in H.
  destruct (pending (comq c)) as [|cmd rest] eqn:Ep;
    [injection H as <- <- <-; rewrite ?Ep; split_and!; auto using advances_refl; lia|].
  destruct (isVH cmd) eqn:Evh.
  - unfold emptyInFlight in H. cbn [in_flight] in H.
    destruct (in_flight (comq c)) as [|f fl] eqn:Efl; injection H as <- <- <-.
    + split_and!; try (cbn; rewrite ?Ep, ?Efl; cbn; lia).
      exists [cmd], [cmd]. rewrite !filter_single. unfold accepted, remote.
      rewrite Evh. cbn. rewrite ?Ep, ?Efl, ?app_nil_r. split_and!; auto.
    + split_and!; try (cbn; rewrite ?Ep, ?Efl; cbn; lia).
      exists [cmd], []. rewrite !filter_single. unfold accepted, remote.
      rewrite Evh. cbn. rewrite ?Ep, ?Efl, ?app_nil_r. split_and!; auto.
  - case_decide as Hrv; injection H as <- <- <-.
    + split_and!; try (cbn; rewrite ?Ep, ?length_app; cbn; lia).
      exists [cmd], []. rewrite !filter_single. unfold accepted, remote.
      rewrite Evh, bool_decide_eq_true_2 by exact Hrv. cbn.
      rewrite ?Ep, ?app_nil_r. split_and!; auto.
      apply Forall_app. split; [exact Hrem|]. constructor; auto.
    + split_and!; try (cbn; rewrite ?Ep; cbn; lia).
      exists [cmd], []. rewrite !filter_single. unfold accepted, remote.
      rewrite Evh, bool_decide_eq_false_2 by exact Hrv. cbn.
      rewrite ?Ep, ?app_nil_r. split_and!; auto.
Qed.

Lemma progress_iteration_advances (c : ThreadContext) (o : observation)
    (r s : Z) (c' : ThreadContext) :
  Forall (fun cmd => isVH cmd = false) (in_flight (comq c)) ->
  progress_iteration c o = ToCondition r s c' ->
  advances c c' /\
  (r + s > 0 ->
     2 * Z.of_nat (length (pending (comq c'))) + Z.of_nat (length (in_flight (comq c')))
     < 2 * Z.of_nat (length (pending (comq c))) + Z.of_nat (length (in_flight (comq c)))).
Proof.
  intros Hrem H. unfold progress_iteration in H.
  destruct (reply o) as [rv|].
  - unfold popInFlight in H.
    destruct (in_flight (comq c)) as [|f fl] eqn:Efl; [discriminate|].
    case_decide as Hneg; [discriminate|].
    inversion Hrem as [|? ? Hf Hfl]; subst.
    set (c1 := mk_ctx (pushCompletion (mk_comq (pending (comq c)) fl (completions (comq c))) f)
                      (state c) (ran c)) in *.
    destruct (try_submit_advances 1 c1 o r s c' Hfl H) as (Hadv & -> & Hs & Hdec & Hsame).
    split.
    + refine (advances_trans c c1 c' _ Hadv).
      exists [], [f]. rewrite filter_single. unfold remote. rewrite Hf. cbn.
      rewrite app_nil_r. split_and!; auto.
    + intros _. cbn in Hdec, Hsame.
      destruct (decide (s = 1)) as [E|E]; [specialize (Hdec E) | specialize (Hsame ltac:(lia))];
        cbn [length]; lia.
  - destruct (try_submit_advances 0 c o r s c' Hrem H) as (Hadv & -> & Hs & Hdec & Hsame).
    split; [exact Hadv|]. intros Hpos. apply Hdec. lia.
Qed.



Lemma progress_iteration_early (c : ThreadContext) (o : observation) (c' : ThreadContext) :
  progress_iteration c o = ReturnsEarly c' ->
  (exists rv, reply o = Some rv /\ rv < 0) /\
  state c' = VEO_STATE_EXIT /\
  pending (comq c') = [] /\ in_flight (comq c') = [] /\
  forall cmd, held c cmd -> cmd ∈ completions (comq c').
Proof.
  unfold progress_iteration. intros H.
  assert (Hsub : forall r c0, try_submit r c0 o <> ReturnsEarly c').
  { intros r c0 Hc. unfold try_submit in Hc.
    destruct (negb (send_slot_free o)); [discriminate|].
    destruct (tryPopRequest _) as [[cmd'|] q']; [|discriminate].
    destruct (isVH cmd'); [destruct (emptyInFlight q'); discriminate|].
    case_decide; discriminate. }
  destruct (reply o) as [rv|]; [|exfalso; exact (Hsub _ _ H)].
  unfold popInFlight in H.
  destruct (in_flight (comq c)) as [|f fl] eqn:Efl; [discriminate|].
  case_decide as Hneg; [|exfalso; exact (Hsub _ _ H)].
  injection H as <-. cbn. split_and!; eauto.
  intros cmd [Hp|[Hf|Hc]].
  - rewrite !elem_of_app. auto.
  - rewrite Efl in Hf. apply elem_of_cons in Hf as [->|Hf].
    + rewrite !elem_of_app. left. right. left.
    + rewrite !elem_of_app. auto.
  - rewrite !elem_of_app. auto.
Qed.

Lemma progress_iteration_throws (c : ThreadContext) (o : observation) (c' : ThreadContext) :
  progress_iteration c o = Throws c' -> c' = c.
Proof.
  unfold progress_iteration. intros H.
  assert (Hsub : forall r c0, try_submit r c0 o <> Throws c').
  { intros r c0 Hc. unfold try_submit in Hc.
    destruct (negb (send_slot_free o)); [discriminate|].
    destruct (tryPopRequest _) as [[cmd'|] q']; [|discriminate].
    destruct (isVH cmd'); [destruct (emptyInFlight q'); discriminate|].
    case_decide; discriminate. }
  destruct (reply o) as [rv|]; [|exfalso; exact (Hsub _ _ H)].
  destruct (popInFlight (comq c)) as [[cmd|] q].
  - case_decide; [discriminate | exfalso; exact (Hsub _ _ H)].
  - injection H as <-. reflexivity.
Qed.

Lemma advances_keeps (c c' : ThreadContext) (cmd : Command) :
  advances c c' ->
  (cmd ∈ in_flight (comq c) ->
     cmd ∈ in_flight (comq c') \/ cmd ∈ completions (comq c')) /\
  (cmd ∈ completions (comq c) -> cmd ∈ completions (comq c')).
Proof.
  intros (popped & new & _ & Hc & Hf & _ & _). split.
  - intros Hin.
    assert (H : cmd ∈ filter remote new ++ in_flight (comq c'))
      by (rewrite <- Hf; apply elem_of_app; left; exact Hin).
    apply elem_of_app in H as [H|H]; [|left; exact H].
    right. rewrite Hc. apply elem_of_app. right.
    apply list_elem_of_filter in H as [_ H]. exact H.
  - intros Hin. rewrite Hc. apply elem_of_app. left. exact Hin.
Qed.

Lemma progress_run_cases
    (env : list observation) (ops : Z) (c : ThreadContext) (e : progress_end) :
  Forall (fun cmd => isVH cmd = false) (in_flight (comq c)) ->
  _progress_nolock env ops c = Some e ->
  advances c (ctx_of e) \/
  (e = Returned (ctx_of e) /\ error_reply env /\
   state (ctx_of e) = VEO_STATE_EXIT /\
   pending (comq (ctx_of e)) = [] /\ in_flight (comq (ctx_of e)) = [] /\
   forall cmd, cmd ∈ in_flight (comq c) \/ cmd ∈ completions (comq c) ->
               cmd ∈ completions (comq (ctx_of e))).
Proof.
  revert ops c. induction env as [|o env IH]; intros ops c Hrem H; [discriminate|].
  cbn [_progress_nolock] in H.
  destruct (progress_iteration c o) as [r s c1|c1|c1] eqn:Hit.
  - destruct (progress_iteration_advances c o r s c1 Hrem Hit) as [Hadv _].
    case_decide as Hgo; [|injection H as <-; left; exact Hadv].
    assert (Hrem1 : Forall (fun cmd => isVH cmd = false) (in_flight (comq c1)))
      by (destruct Hadv as (_ & _ & _ & _ & _ & Hr & _); exact Hr).
    destruct (IH _ c1 Hrem1 H) as [Hadv'|(He & (o' & rv & Hin & Hr & Hneg) & Hs & Hp & Hf & Hall)].
    + left. exact (advances_trans _ _ _ Hadv Hadv').
    + right. split_and!; auto.
      * exists o', rv. split_and!; auto. right. exact Hin.
      * intros cmd Hc. apply Hall.
        destruct (advances_keeps c c1 cmd Hadv) as [Hk1 Hk2].
        destruct Hc as [Hc|Hc]; [destruct (Hk1 Hc); auto | auto].
  - injection H as <-. right.
    destruct (progress_iteration_early c o c1 Hit) as ((rv & Hr & Hneg) & Hs & Hp & Hf & Hall).
    cbn [ctx_of]. split_and!; auto.
    + exists o, rv. split_and!; auto. left.
    + intros cmd [Hc|Hc]; apply Hall; unfold held; auto.
  - injection H as <-. left. cbn [ctx_of].
    rewrite (progress_iteration_throws c o c1 Hit). apply advances_refl, Hrem.
Qed.

(** X19.  However a call of [_progress_nolock] ends, no command that was
    in flight is lost (it is still in flight or among the completions)
    and no completion is removed.  The context's state is changed only
    when a result function reports an error: then the call returns with
    the state [VEO_STATE_EXIT], with nothing pending or in flight, and
    with every command that was in flight among the completions. *)
Theorem progress_exit_cancels
    (env : list observation) (ops : Z) (c : ThreadContext) (e : progress_end) :
  Forall (fun cmd => isVH cmd = false) (in_flight (comq c)) ->
  _progress_nolock env ops c = Some e ->
  let c' := ctx_of e in
  (forall cmd, cmd ∈ in_flight (comq c) ->
     cmd ∈ in_flight (comq c') \/ cmd ∈ completions (comq c')) /\
  (forall cmd, cmd ∈ completions (comq c) -> cmd ∈ completions (comq c')) /\
  (state c' <> state c ->
     e = Returned c' /\ error_reply env /\ state c' = VEO_STATE_EXIT /\
     pending (comq c') = [] /\ in_flight (comq c') = [] /\
     forall cmd, cmd ∈ in_flight (comq c) -> cmd ∈ completions (comq c')).
Proof.
  intros Hrem H c'. subst c'.
  destruct (progress_run_cases env ops c e Hrem H)
    as [Hadv|(He & Herr & Hs & Hp & Hf & Hall)].
  - split_and!.
    + intros cmd. apply (advances_keeps _ _ cmd Hadv).
    + intros cmd. apply (advances_keeps _ _ cmd Hadv).
    + intros Hne. exfalso. apply Hne.
      destruct Hadv as (_ & _ & _ & _ & _ & _ & Hst). exact Hst.
  - split_and!.
    + intros cmd Hin. right. apply Hall. left. exact Hin.
    + intros cmd Hin. apply Hall. right. exact Hin.
    + intros _. split_and!; auto.
Qed.


(** ** The payload writer stays in its block *)

Lemma store_bytes_outside (mem : memory) (a : Z) (bs : list byte) (x : Z) :
  x < a \/ a + Z.of_nat (length bs) <= x -> store_bytes mem a bs x = mem x.
Proof. intros H. unfold store_bytes. case_decide; [lia | reflexivity]. Qed.

(** X14.  The emitting loop of [urpc_generic_send] writes only inside
    the block the sizing loop measured: whatever the values and buffer
    lengths, [pp] ends exactly [size] bytes after the start, and every
    byte below the start and every byte from the end on is as before. *)
Theorem pack_fields_confined (fmt : string) (args : list send_arg)
    (mem mem' : memory) (pp pp' sz : Z) :
  pack_size fmt args = Some sz ->
  pack_fields fmt args mem pp = Some (mem', pp') ->
  pp' = pp + sz /\
  forall x, x < pp \/ pp + sz <= x -> mem' x = mem x.
Proof.
  revert args mem pp sz.
  induction fmt as [|c rest IH]; intros args mem pp sz Hs Hp; cbn in Hs, Hp.
  - injection Hs as <-. injection Hp as <- <-. split; [lia | auto].
  - destruct (classify c); destruct args as [|[v|v|data] args'];
      try discriminate; cbn in Hs;
      try (destruct (pack_size rest _) as [sz'|] eqn:E; [|discriminate];
           injection Hs as <-;
           pose proof (pack_size_nonneg _ _ _ E);
           destruct (IH _ _ _ _ E Hp) as [-> Hfr]; split; [lia|];
           intros x Hx; rewrite Hfr by lia;
           unfold store32, store64; try case_decide;
           rewrite ?store_bytes_outside by (rewrite ?length_le_split; lia);
           reflexivity);
      try (destruct (IH _ _ _ _ Hs Hp) as [-> Hfr]; split; [lia | exact Hfr]).
Qed.

(** ** The pointers the reader hands out *)

Lemma unpack_fields_negative (fmt : string) (mem : memory) (pp lsz : Z) :
  lsz < 0 -> unpack_fields fmt mem pp lsz = ([], lsz).
Proof.
  intros H. destruct fmt as [|c rest]; cbn; [reflexivity|].
  case_decide; [reflexivity | lia].
Qed.

Lemma within_payload_mono (lo hi lo' hi' : Z) (vs : list recv_val) :
  lo' <= lo -> hi <= hi' ->
  Forall (within_payload lo hi) vs -> Forall (within_payload lo' hi') vs.
Proof.
  intros Hlo Hhi H. eapply Forall_impl; [exact H|].
  intros [v|v|ptr len]; cbn; auto. lia.
Qed.

Lemma unpack_fields_pointers (fmt : string) (mem : memory) (pp lsz : Z) :
  - 2 ^ 63 <= lsz < 2 ^ 63 ->
  bytes_required fmt mem pp < 2 ^ 63 ->
  0 <= (unpack_fields fmt mem pp lsz).2 ->
  Forall (within_payload pp (pp + lsz)) (unpack_fields fmt mem pp lsz).1.
Proof.
  revert pp lsz. induction fmt as [|c rest IH]; intros pp lsz Hl Hr Hend.
  - cbn. constructor.
  - destruct (decide (lsz < 0)) as [Hneg|Hpos].
    + rewrite unpack_fields_negative by exact Hneg. constructor.
    + rewrite unpack_fields_cons in Hend |- * by lia. cbn [bytes_required] in Hr.
      destruct (classify c); cbn [fst snd] in Hend |- *.
      * pose proof (bytes_required_nonneg rest mem (pp + 4)).
        constructor; [exact I|].
        destruct (decide (lsz - 4 < 0)) as [Hn|Hn];
          [rewrite unpack_fields_negative in Hend |- * by exact Hn; cbn in *; lia|].
        refine (within_payload_mono _ _ _ _ _ _ _ (IH (pp + 4) (lsz - 4) _ _ Hend)); lia.
      * pose proof (bytes_required_nonneg rest mem (pp + 8)).
        constructor; [exact I|].
        destruct (decide (lsz - 8 < 0)) as [Hn|Hn];
          [rewrite unpack_fields_negative in Hend |- * by exact Hn; cbn in *; lia|].
        refine (within_payload_mono _ _ _ _ _ _ _ (IH (pp + 8) (lsz - 8) _ _ Hend)); lia.
      * pose proof (load64_range mem pp).
        pose proof (bytes_required_nonneg rest mem (pp + 8 + load64 mem pp)).
        rewrite s64_small in Hend |- * by lia.
        destruct (decide (lsz - 8 - load64 mem pp < 0)) as [Hn|Hn];
          [rewrite unpack_fields_negative in Hend |- * by exact Hn; cbn in *; lia|].
        constructor; [cbn; lia|].
        refine (within_payload_mono _ _ _ _ _ _ _
                  (IH (pp + 8 + load64 mem pp) (lsz - 8 - load64 mem pp) _ _ Hend)); lia.
      * pose proof (bytes_required_nonneg rest mem (pp + 4)).
        destruct (decide (lsz - 4 < 0)) as [Hn|Hn];
          [rewrite unpack_fields_negative in Hend |- * by exact Hn; cbn in *; lia|].
        refine (within_payload_mono _ _ _ _ _ _ _ (IH (pp + 4) (lsz - 4) _ _ Hend)); lia.
      * apply IH; assumption.
Qed.

(** X15.  Where no length overflows a [long], a return code of 0 from
    [urpc_unpack_payload] means that every buffer pointer it stored
    points into the payload and that the buffer, with the length stored
    beside it, ends inside the payload. *)
Theorem urpc_unpack_payload_pointers
    (mem : memory) (payload psz : Z) (fmt : string) (vals : list recv_val) :
  0 <= psz < 2 ^ 63 ->
  bytes_required fmt mem payload < 2 ^ 63 ->
  urpc_unpack_payload mem payload psz fmt = (0, vals) ->
  Forall (within_payload payload (payload + psz)) vals.
Proof.
  intros Hp Hr H. unfold urpc_unpack_payload in H. rewrite s64_small in H by lia.
  pose proof (unpack_fields_pointers fmt mem payload psz ltac:(lia) Hr) as Hf.
  destruct (unpack_fields fmt mem payload psz) as [vs l]. cbn [fst snd] in Hf.
  case_decide as Hd; [discriminate|]. injection H as <-. apply Hf. lia.
Qed.

(** ** Back-pressure *)

Section BackPressure.
Context {cfg : urpc_config}.

Lemma urpc_put_cmd_free (uc : urpc_comm_t) (m : urpc_mb_t) :
  mb_cmd (mb (tq uc) !!! REQ2SLOT (last_put_req (tq uc) + 1)) = URPC_CMD_NONE ->
  is_Some (urpc_put_cmd uc m).
Proof. intros H. unfold urpc_put_cmd. case_decide; [contradiction | eauto]. Qed.

Lemma urpc_put_cmd_busy (uc : urpc_comm_t) (m : urpc_mb_t) :
  mb_cmd (mb (tq uc) !!! REQ2SLOT (last_put_req (tq uc) + 1)) <> URPC_CMD_NONE ->
  urpc_put_cmd uc m = None.
Proof. intros H. unfold urpc_put_cmd. case_decide; [reflexivity | contradiction]. Qed.

(** X20.  With all N slots holding unread requests, [urpc_put_cmd]
    cannot complete; it still cannot after the receiver has fetched the
    oldest request with [urpc_get_cmd], and it can as soon as the
    receiver has marked that request done with [urpc_slot_done]: what
    releases a slot to the sender is the completion, not the fetch. *)
Theorem full_ring_blocks_sender (uc : urpc_comm_t) (m : urpc_mb_t) :
  tq_inv uc -> -1 <= last_get_req (tq uc) ->
  last_put_req (tq uc) = last_get_req (tq uc) + Z.of_nat URPC_LEN_MB ->
  urpc_put_cmd uc m = None /\
  (forall uc1, tq_step uc EvGet = Some uc1 -> urpc_put_cmd uc1 m = None) /\
  (forall uc1, tq_step uc EvGetDone = Some uc1 -> is_Some (urpc_put_cmd uc1 m)).
Proof.
  intros ((Hmb & _) & _ & Hlive) Hge Hfull. pose proof URPC_LEN_MB_pos as HN.
  assert (Hslot : REQ2SLOT (last_put_req (tq uc) + 1) = REQ2SLOT (last_get_req (tq uc) + 1))
    by (rewrite Hfull, <- (REQ2SLOT_plus_N (last_get_req (tq uc) + 1)); f_equal; lia).
  assert (Hbusy : mb_cmd (mb (tq uc) !!! REQ2SLOT (last_put_req (tq uc) + 1))
                  <> URPC_CMD_NONE)
    by (rewrite Hslot; apply Hlive; lia).
  destruct (urpc_get_cmd_cases (tq uc) mb_zero) as [[_ E]|[E _]]; [|lia].
  split_and!.
  - apply urpc_put_cmd_busy, Hbusy.
  - intros uc1 H. cbn in H. rewrite E in H. injection H as <-.
    apply urpc_put_cmd_busy. exact Hbusy.
  - intros uc1 H. cbn in H. rewrite E in H. case_decide; [lia|]. injection H as <-.
    apply urpc_put_cmd_free. cbn. rewrite Hslot.
    rewrite list_lookup_total_insert_eq by (rewrite Hmb; apply REQ2SLOT_lt).
    reflexivity.
Qed.

Lemma puts_from_empty (ms : list urpc_mb_t) (uc : urpc_comm_t) (k : nat) :
  length (mb (tq uc)) = URPC_LEN_MB ->
  last_put_req (tq uc) = Z.of_nat k - 1 ->
  (forall i, (k <= i < URPC_LEN_MB)%nat -> mb_cmd (mb (tq uc) !!! i) = URPC_CMD_NONE) ->
  (k + length ms <= URPC_LEN_MB)%nat ->
  exists uc',
    tq_run uc (map EvPut ms) = Some uc' /\
    length (mb (tq uc')) = URPC_LEN_MB /\
    last_put_req (tq uc') = Z.of_nat (k + length ms) - 1 /\
    last_get_req (tq uc') = last_get_req (tq uc) /\
    (forall i, (k + length ms <= i < URPC_LEN_MB)%nat ->
       mb_cmd (mb (tq uc') !!! i) = URPC_CMD_NONE) /\
    (forall i, (i < k)%nat -> mb (tq uc') !!! i = mb (tq uc) !!! i) /\
    (forall i x, ms !! i = Some x -> mb (tq uc') !!! (k + i)%nat = x).
Proof.
  revert uc k. induction ms as [|m ms IH]; intros uc k Hmb Hp Hfree Hlen.
  - exists uc. cbn. rewrite Nat.add_0_r. split_and!; auto.
    intros i x Hi. rewrite lookup_nil in Hi. discriminate.
  - cbn [length] in Hlen |- *. cbn [map tq_run tq_step].
    assert (Hslot : REQ2SLOT (last_put_req (tq uc) + 1) = k).
    { unfold REQ2SLOT. rewrite Hp. replace (Z.of_nat k - 1 + 1) with (Z.of_nat k) by lia.
      rewrite Z.mod_small by lia. lia. }
    destruct (urpc_put_cmd_free uc m) as [[req uc1] Hput];
      [rewrite Hslot; apply Hfree; lia|].
    rewrite Hput. cbn [fmap option_fmap option_map snd].
    apply urpc_put_cmd_returns in Hput as (_ & -> & Htq & _). rewrite Hslot in Htq.
    destruct (IH uc1 (S k)) as (uc' & Hrun & Hl & Hp' & Hg' & Hfree' & Hold & Hnew).
    + rewrite Htq. cbn. rewrite length_insert. exact Hmb.
    + rewrite Htq. cbn. lia.
    + intros i Hi. rewrite Htq. cbn.
      rewrite list_lookup_total_insert_ne by lia. apply Hfree. lia.
    + lia.
    + exists uc'. split; [exact Hrun|]. split; [exact Hl|].
      replace (k + S (length ms))%nat with (S k + length ms)%nat by lia.
      refine (conj Hp' (conj _ (conj Hfree' (conj _ _)))).
      * rewrite Hg', Htq. reflexivity.
      * intros i Hi. rewrite Hold by lia. rewrite Htq. cbn.
        apply list_lookup_total_insert_ne. lia.
      * intros [|i] x Hi; cbn in Hi.
        -- injection Hi as <-. rewrite Nat.add_0_r, Hold by lia. rewrite Htq. cbn.
           apply list_lookup_total_insert_eq. lia.
        -- replace (k + S i)%nat with (S k + i)%nat by lia. apply Hnew. exact Hi.
Qed.

(** X21.  Capacity: on a freshly initialised communicator, N calls of
    [urpc_put_cmd] in a row complete without any help from the receiver,
    for any mailboxes; request [i] (counted from 0) gets the number [i]
    and sits in slot [i]; and when all N slots are used with commands the
    next call cannot complete. *)
Theorem ring_capacity (uc0 : urpc_comm_t) (ms : list urpc_mb_t) :
  comm_shape uc0 ->
  (length ms <= URPC_LEN_MB)%nat ->
  exists uc,
    tq_run (vh_urpc_comm_init uc0) (map EvPut ms) = Some uc /\
    last_put_req (tq uc) = Z.of_nat (length ms) - 1 /\
    last_get_req (tq uc) = -1 /\
    (forall i x, ms !! i = Some x -> mb (tq uc) !!! i = x) /\
    (length ms = URPC_LEN_MB ->
     Forall (fun x => mb_cmd x <> URPC_CMD_NONE) ms ->
     forall m, urpc_put_cmd uc m = None).
Proof.
  intros Hshape Hlen. pose proof URPC_LEN_MB_pos as HN.
  destruct (comm_init_fields uc0 Hshape) as (Emb & _ & _ & _ & Ep & Eg & _ & _).
  cbv zeta in Emb, Ep, Eg.
  destruct (puts_from_empty ms (vh_urpc_comm_init uc0) 0)
    as (uc & Hrun & Hl & Hp & Hg & _ & _ & Hnew).
  - rewrite Emb, length_replicate. reflexivity.
  - rewrite Ep. reflexivity.
  - intros i Hi. rewrite Emb.
    rewrite list_lookup_total_alt, lookup_replicate_2 by lia. reflexivity.
  - lia.
  - exists uc. cbn [Nat.add] in Hp, Hnew.
    refine (conj Hrun (conj Hp (conj _ (conj Hnew _)))); [congruence|].
    intros Hfull Hcmds m. apply urpc_put_cmd_busy.
    assert (Hslot : REQ2SLOT (last_put_req (tq uc) + 1) = O).
    { unfold REQ2SLOT. rewrite Hp, Hfull.
      replace (Z.of_nat URPC_LEN_MB - 1 + 1) with (Z.of_nat URPC_LEN_MB) by lia.
      rewrite Z_mod_same_full. reflexivity. }
    rewrite Hslot. destruct ms as [|x ms']; [cbn in Hfull; lia|].
    rewrite (Hnew O x eq_refl). inversion Hcmds; assumption.
Qed.

End BackPressure.

(** * Instances of the theorems on concrete inputs *)

Lemma vh_urpc_comm_init_state_witness :
  comm_shape (cfg := example_cfg) (stale_comm 256) /\
  mb (tq (vh_urpc_comm_init (cfg := example_cfg) (stale_comm 256)))
    = replicate 256 mb_zero /\
  free_end (vh_urpc_comm_init (cfg := example_cfg) (stale_comm 256)) = 4194304.
Proof.
  assert (Hshape : comm_shape (cfg := example_cfg) (stale_comm 256))
    by (split; reflexivity).
  split; [exact Hshape|].
  pose proof (vh_urpc_comm_init_state (cfg := example_cfg) (stale_comm 256) Hshape) as H.
  cbv zeta in H. split; [apply H | apply H].
Defined.






Lemma urpc_recv_progress_frees_slots_witness :
  (urpc_recv_progress (cfg := small_cfg) three_requests 5).1.1 = 3 /\
  slot_done_calls (urpc_recv_progress (cfg := small_cfg) three_requests 5).2
    = [0; 1; 2]%nat.
Proof.
  assert (Hshape : comm_shape (cfg := small_cfg) (recv three_requests))
    by (split; reflexivity).
  assert (Hcnt : -1 <= last_get_req (tq (recv three_requests))
                    <= last_put_req (tq (recv three_requests)))
    by (vm_compute; split; discriminate).
  pose proof (urpc_recv_progress_frees_slots (cfg := small_cfg)
                three_requests 5 Hshape Hcnt) as H.
  cbv zeta in H. destruct H as (Hd & _ & _ & Hc & _).
  split; [rewrite Hd | rewrite Hc]; vm_compute; reflexivity.
Defined.

(** C8.  Two requests arrive before the first poll; one call with budget 4
    and a timeout of 100 us processes both, sees the queue idle and leaves
    once the timeout has passed.  The loop processed two requests, and the
    function reaches its closing brace without a [return]: the caller gets
    no count. *)
Theorem urpc_recv_progress_timeout_falls_off_end :
  exists up',
    urpc_recv_progress_timeout (cfg := small_cfg)
      [([mk_mb 1 0 8; mk_mb 3 8 8], 10, 0); ([], 20, 0); ([], 130, 110)]
      (mk_peer (vh_urpc_comm_init (cfg := small_cfg) (stale_comm 4))
               counting_handlers O)
      4 100
    = Some (FallsOffEnd, up', 2) /\
    FallsOffEnd <> Returns 2.
Proof. eexists. split; [vm_compute; reflexivity | discriminate]. Qed.

(** C9.  Take a peer record of, say, 4656 bytes that [malloc] returns
    filled with 0xAA: after the [memset] of [vh_urpc_peer_create] only its
    first eight bytes are zero; byte 8 and all that follow still hold
    0xAA, so the record is not zero-initialised. *)
Theorem vh_urpc_peer_create_leaves_garbage :
  exists block,
    vh_urpc_peer_create_block 64 0 (Some (replicate 4656 170)) = Some block /\
    take 8 block = replicate 8 0 /\
    drop 8 block = replicate 4648 170 /\
    ~ zero_initialized block.
Proof.
  eexists. split; [reflexivity|]. split; [reflexivity|]. split; [reflexivity|].
  intros H. apply (peer_create_block_zero_iff 64 0 (replicate 4656 170)) in H;
    [|reflexivity].
  apply (Forall_lookup_1 _ _ 0%nat 170) in H; [discriminate H | reflexivity].
Qed.

(** C1.  A remote call (id 1) and then a host-side call (id 2) are
    submitted on a fresh context; the send slot is free and no reply has
    arrived yet.  The first pass submits the remote call; the second pops
    the host-side command, finds the in-flight queue non-empty, and lets
    the command go out of scope: when the loop returns, the host-side
    command has not run and is in none of the three queues, so it is not
    deferred but lost. *)
Theorem progress_loses_deferred_vh_command :
  let remote := mk_cmd 1 false 0 in
  let vh := mk_cmd 2 true 0 in
  let c := mk_ctx (mk_comq [remote; vh] [] []) VEO_STATE_RUNNING [] in
  exists c',
    _progress_nolock [mk_obs None true; mk_obs None true] 3 c = Some (Returned c') /\
    comq c' = mk_comq [] [remote] [] /\
    ran c' = [remote] /\
    ~ held c' vh.
Proof.
  cbv zeta. eexists. split; [reflexivity|]. split; [reflexivity|].
  split; [reflexivity|].
  intros [H|[H|H]]; cbn in H.
  - apply elem_of_nil in H as [].
  - apply list_elem_of_singleton in H. discriminate H.
  - apply elem_of_nil in H as [].
Qed.

Lemma pack_unpack_roundtrip_witness :
  args_match "IxLP" echo_args /\
  exists vals,
    urpc_unpack_payload
      (match pack_fields "IxLP" echo_args (fun _ => Byte.xaa) 16 with
       | Some (mem', _) => mem'
       | None => fun _ => Byte.x00
       end) 16 32 "IxLP" = (0, vals).
Proof.
  assert (Hm : args_match "IxLP" echo_args) by (cbn; repeat split; lia).
  split; [exact Hm|].
  destruct (pack_unpack_roundtrip "IxLP" echo_args (fun _ => Byte.xaa) 16 Hm)
    as (sz & mem' & Hs & Hp & Hu).
  rewrite Hp. injection Hs as <-.
  destruct (Hu 32 ltac:(lia)) as (vals & Hv & _).
  exists vals. exact Hv.
Defined.

(** C6.  An eight-byte payload holding 0xFF in every byte, unpacked with
    format ["P"] and [psz = 8]: the length field reads 2^64 - 1, the
    format asks for far more than eight bytes, and yet the function
    returns 0, with a buffer pointer and length that lie outside the
    payload.  The subtraction of the length from [lsz] wraps round to 1. *)
Theorem urpc_unpack_payload_misses_short_buffer :
  urpc_unpack_payload (fun _ => Byte.xff) 0 8 "P"
    = (0, [RecvP 8 18446744073709551615]) /\
  bytes_required "P" (fun _ => Byte.xff) 0 > 8.
Proof. split; vm_compute; reflexivity. Qed.

(** ** Instances of the further properties *)

Lemma fresh_comm_shape : comm_shape (cfg := small_cfg) (stale_comm 4).
Proof. split; reflexivity. Defined.

Lemma puts_append_in_order_witness :
  exists uc',
    tq_run (cfg := small_cfg) fresh_comm (map EvPut [mk_mb 1 0 8; mk_mb 2 8 8]) = Some uc' /\
    unread (cfg := small_cfg) (tq uc') = [mk_mb 1 0 8; mk_mb 2 8 8].
Proof.
  destruct (tq_inv_init (cfg := small_cfg) (stale_comm 4) fresh_comm_shape) as [Hinv Hge].
  eexists. split; [vm_compute; reflexivity|].
  refine (proj1 (puts_append_in_order (cfg := small_cfg)
                   [mk_mb 1 0 8; mk_mb 2 8 8] fresh_comm _ Hinv Hge _ _)).
  - repeat constructor; cbn; discriminate.
  - vm_compute; reflexivity.
Defined.

Lemma urpc_get_cmd_takes_oldest_witness :
  exists q',
    urpc_get_cmd (cfg := small_cfg) (tq (recv three_requests)) mb_zero
      = (0, mk_mb 1 0 8, q') /\
    unread (cfg := small_cfg) q' = [mk_mb 2 8 8; mk_mb 3 16 8].
Proof.
  pose proof (urpc_get_cmd_takes_oldest (cfg := small_cfg)
                (tq (recv three_requests)) mb_zero
                ltac:(vm_compute; discriminate)) as H.
  revert H. vm_compute. intros (q' & E & Hu & _).
  exists q'. split; [exact E | exact Hu].
Defined.

Lemma urpc_get_req_looks_up_witness :
  urpc_get_req (cfg := small_cfg) (tq (recv three_requests)) mb_zero 3
    = (-1, mb_zero, tq (recv three_requests)) /\
  exists found q',
    urpc_get_req (cfg := small_cfg) (tq (recv three_requests)) mb_zero 1
      = (1, found, q') /\
    unread (cfg := small_cfg) (tq (recv three_requests)) !! 1%nat = Some found.
Proof.
  destruct (urpc_get_req_looks_up (cfg := small_cfg) (tq (recv three_requests)) mb_zero 3
              ltac:(vm_compute; discriminate)) as [Hout _].
  destruct (urpc_get_req_looks_up (cfg := small_cfg) (tq (recv three_requests)) mb_zero 1
              ltac:(vm_compute; discriminate)) as [_ Hin].
  split.
  - apply Hout. right. vm_compute. reflexivity.
  - destruct (Hin ltac:(vm_compute; split; [reflexivity | discriminate]))
      as (found & q' & E & Hl & _).
    exists found, q'. split; [exact E|].
    rewrite <- Hl. vm_compute. reflexivity.
Defined.

Lemma urpc_get_cmd_timeout_outcome_witness :
  is_Some (urpc_get_cmd_timeout (cfg := small_cfg) [([], 40); ([], 200)]
             (tq fresh_comm) mb_zero 100).
Proof.
  apply (proj1 (urpc_get_cmd_timeout_outcome (cfg := small_cfg) [([], 40); ([], 200)]
                  (tq fresh_comm) mb_zero 100
                  ltac:(vm_compute; split; discriminate))).
  exists [], 200. split; [right; left | lia].
Defined.

Lemma urpc_recv_req_timeout_outcome_witness :
  is_Some (urpc_recv_req_timeout (cfg := small_cfg) [([], 40); ([], 200)]
             (tq fresh_comm) mb_zero 0 100 None 0).
Proof.
  apply (proj1 (urpc_recv_req_timeout_outcome (cfg := small_cfg) [([], 40); ([], 200)]
                  (tq fresh_comm) mb_zero 0 100 None 0 ltac:(lia))).
  exists [], 200. split; [right; left | lia].
Defined.

Lemma register_after_unregister_witness :
  1 <= 1 <= 255 /\
  (urpc_register_handler 255
     (urpc_unregister_handler 255 idle_peer 1).2 1 (counting_handlers 3)).1 = 1.
Proof.
  assert (H : 1 <= 1 <= 255) by lia. split; [exact H|].
  exact (proj1 (proj2 (register_after_unregister 255 idle_peer 1
                         (counting_handlers 3) None H))).
Defined.

Lemma urpc_recv_progress_dispatches_witness :
  (world (urpc_recv_progress (cfg := small_cfg) three_requests 2).1.2,
   handler_calls (urpc_recv_progress (cfg := small_cfg) three_requests 2).2)
  = (1%nat, [(1, 0)]) /\
  unread (cfg := small_cfg)
    (tq (recv (urpc_recv_progress (cfg := small_cfg) three_requests 2).1.2))
  = [mk_mb 3 16 8].
Proof.
  destruct (urpc_recv_progress_dispatches (cfg := small_cfg) three_requests 2
              ltac:(split; reflexivity)
              ltac:(vm_compute; split; discriminate)
              ltac:(vm_compute; discriminate)) as [H1 H2].
  split; [rewrite H1 | rewrite H2]; vm_compute; reflexivity.
Defined.

Lemma urpc_recv_progress_timeout_drains_witness :
  exists up',
    urpc_recv_progress_timeout (cfg := small_cfg)
      [([mk_mb 1 0 8; mk_mb 3 8 8], 10, 0); ([], 20, 0); ([], 130, 110)]
      idle_peer 4 100
    = Some (FallsOffEnd, up', 2) /\
    last_put_req (tq (recv up')) = last_get_req (tq (recv up')).
Proof.
  eexists. split; [vm_compute; reflexivity|].
  match goal with |- last_put_req (tq (recv ?u)) = _ =>
    assert (E : urpc_recv_progress_timeout (cfg := small_cfg)
                  [([mk_mb 1 0 8; mk_mb 3 8 8], 10, 0); ([], 20, 0); ([], 130, 110)]
                  idle_peer 4 100 = Some (FallsOffEnd, u, 2))
      by (vm_compute; reflexivity);
    destruct (urpc_recv_progress_timeout_drains (cfg := small_cfg)
                [([mk_mb 1 0 8; mk_mb 3 8 8], 10, 0); ([], 20, 0); ([], 130, 110)]
                idle_peer 4 100 FallsOffEnd u 2
                ltac:(reflexivity) ltac:(vm_compute; split; discriminate) E)
      as (_ & _ & He & _)
  end.
  apply He. lia.
Defined.


Lemma fresh_comm_ring : ring_inv (cfg := small_cfg) fresh_comm.
Proof.
  unfold ring_inv. split; [vm_compute; split; discriminate|].
  split; [vm_compute; split; discriminate|].
  change (mlist fresh_comm) with (replicate 4 ml_zero).
  apply Forall_replicate. unfold ml_ok. vm_compute. repeat split; discriminate.
Defined.

Lemma alloc_payload_within_ring_witness :
  exists uc',
    _alloc_payload (cfg := small_cfg) [([], 2000)] fresh_comm 100 = Some (mb_zero, uc') /\
    ring_inv (cfg := small_cfg) uc'.
Proof.
  eexists. split; [vm_compute; reflexivity|].
  match goal with |- ring_inv ?u =>
    assert (E : _alloc_payload (cfg := small_cfg) [([], 2000)] fresh_comm 100
                = Some (mb_zero, u)) by (vm_compute; reflexivity);
    exact (proj1 (alloc_payload_within_ring (cfg := small_cfg) [([], 2000)] fresh_comm 100
                    mb_zero u ltac:(reflexivity) fresh_comm_ring
                    ltac:(vm_compute; split; discriminate) E))
  end.
Defined.



Lemma pack_fields_confined_witness :
  exists mem',
    pack_fields "IxLP" echo_args (fun _ => Byte.xaa) 16 = Some (mem', 44) /\
    mem' 15 = Byte.xaa /\ mem' 44 = Byte.xaa.
Proof.
  destruct (pack_fields "IxLP" echo_args (fun _ => Byte.xaa) 16) as [[mem' pp']|] eqn:E.
  - destruct (pack_fields_confined "IxLP" echo_args (fun _ => Byte.xaa) mem' 16 pp' 28
                ltac:(reflexivity) E) as [-> Hfr].
    exists mem'. split; [reflexivity|].
    split; apply Hfr; lia.
  - exfalso. revert E. vm_compute. discriminate.
Defined.

Lemma urpc_unpack_payload_pointers_witness :
  urpc_unpack_payload one_buffer 0 16 "P" = (0, [RecvP 8 4]) /\
  Forall (within_payload 0 (0 + 16)) [RecvP 8 4].
Proof.
  assert (E : urpc_unpack_payload one_buffer 0 16 "P" = (0, [RecvP 8 4]))
    by (vm_compute; reflexivity).
  split; [exact E|].
  exact (urpc_unpack_payload_pointers one_buffer 0 16 "P" [RecvP 8 4]
           ltac:(lia) ltac:(vm_compute; reflexivity) E).
Defined.

Lemma urpc_unpack_payload_short_iff_witness :
  (urpc_unpack_payload one_buffer 0 8 "P").1 = -1 /\
  (urpc_unpack_payload one_buffer 0 12 "P").1 = 0.
Proof.
  split.
  - apply (proj2 (proj1 (urpc_unpack_payload_short_iff one_buffer 0 8 "P"
                           ltac:(lia) ltac:(vm_compute; reflexivity)))).
    vm_compute. reflexivity.
  - apply (proj2 (proj2 (urpc_unpack_payload_short_iff one_buffer 0 12 "P"
                           ltac:(lia) ltac:(vm_compute; reflexivity)))).
    vm_compute. discriminate.
Defined.



Lemma progress_exit_cancels_witness :
  exists c',
    _progress_nolock [mk_obs (Some (-1)) true] 0
      (mk_ctx (mk_comq [vh_call] [remote_call_1; remote_call_2] []) VEO_STATE_RUNNING [])
    = Some (Returned c') /\
    state c' = VEO_STATE_EXIT /\ pending (comq c') = [] /\ in_flight (comq c') = [] /\
    remote_call_2 ∈ completions (comq c').
Proof.
  eexists. split; [vm_compute; reflexivity|].
  match goal with |- state ?u = _ /\ _ =>
    assert (E : _progress_nolock [mk_obs (Some (-1)) true] 0
                  (mk_ctx (mk_comq [vh_call] [remote_call_1; remote_call_2] [])
                          VEO_STATE_RUNNING [])
                = Some (Returned u)) by (vm_compute; reflexivity);
    destruct (progress_exit_cancels [mk_obs (Some (-1)) true] 0
                (mk_ctx (mk_comq [vh_call] [remote_call_1; remote_call_2] [])
                        VEO_STATE_RUNNING [])
                (Returned u)
                ltac:(repeat (apply Forall_cons_2; [reflexivity|]); apply Forall_nil_2) E)
      as (_ & _ & H3)
  end.
  destruct (H3 ltac:(discriminate)) as (_ & _ & Hs & Hp & Hf & Hall).
  split; [exact Hs|]. split; [exact Hp|]. split; [exact Hf|].
  apply Hall. right. left.
Defined.

Lemma full_ring_blocks_sender_witness :
  exists uc,
    tq_run (cfg := small_cfg) fresh_comm (map EvPut four_commands) = Some uc /\
    urpc_put_cmd (cfg := small_cfg) uc (mk_mb 2 0 0) = None.
Proof.
  destruct (tq_inv_init (cfg := small_cfg) (stale_comm 4) fresh_comm_shape) as [Hinv Hge].
  eexists. split; [vm_compute; reflexivity|].
  match goal with |- urpc_put_cmd ?u _ = None =>
    assert (E : tq_run (cfg := small_cfg) fresh_comm (map EvPut four_commands) = Some u)
      by (vm_compute; reflexivity);
    destruct (tq_run_preserves (cfg := small_cfg) (map EvPut four_commands) fresh_comm u
                Hinv Hge
                ltac:(repeat (apply Forall_cons_2; [cbn; discriminate|]); apply Forall_nil_2)
                E) as [Hinv' Hge'];
    exact (proj1 (full_ring_blocks_sender (cfg := small_cfg) u (mk_mb 2 0 0) Hinv' Hge'
                    ltac:(vm_compute; reflexivity)))
  end.
Defined.

Lemma ring_capacity_witness :
  exists uc,
    tq_run (cfg := small_cfg) fresh_comm (map EvPut four_commands) = Some uc /\
    last_put_req (tq uc) = 3.
Proof.
  destruct (ring_capacity (cfg := small_cfg) (stale_comm 4) four_commands
              fresh_comm_shape ltac:(vm_compute; lia))
    as (uc & Hrun & Hp & _).
  exists uc. split; [exact Hrun | exact Hp].
Defined.

Lemma generic_send_then_unpack_witness :
  exists uc' data',
    urpc_generic_send (cfg := small_cfg) [] fresh_comm (fun _ => Byte.x00) 1
                      "IxLP" echo_args = Some (0, uc', data') /\
    mb_cmd (mb (tq uc') !!! REQ2SLOT (cfg := small_cfg) 0) = 1.
Proof.
  assert (Hreq : (match urpc_generic_send (cfg := small_cfg) [] fresh_comm
                          (fun _ => Byte.x00) 1 "IxLP" echo_args with
                  | Some (req, _, _) => Some req
                  | None => None
                  end) = Some 0) by (vm_compute; reflexivity).
  destruct (urpc_generic_send (cfg := small_cfg) [] fresh_comm (fun _ => Byte.x00) 1
              "IxLP" echo_args) as [[[req uc'] data']|] eqn:E; [|discriminate Hreq].
  injection Hreq as ->. exists uc', data'. split; [reflexivity|].
  exact (proj1 (generic_send_then_unpack (cfg := small_cfg) [] fresh_comm uc'
                  (fun _ => Byte.x00) data' 1 "IxLP" echo_args 0 28
                  ltac:(split; reflexivity) ltac:(cbn; repeat split; lia)
                  ltac:(reflexivity) ltac:(lia) E ltac:(discriminate))).
Defined.

Lemma vh_runs_only_with_empty_in_flight_witness :
  exists c',
    progress_iteration (mk_ctx (mk_comq [vh_call] [] []) VEO_STATE_RUNNING [])
                       (mk_obs None true) = ToCondition 0 1 c' /\
    in_flight (comq c') = [] /\ vh_call ∈ completions (comq c').
Proof.
  eexists. split; [reflexivity|].
  exact (vh_runs_only_with_empty_in_flight
           (mk_ctx (mk_comq [vh_call] [] []) VEO_STATE_RUNNING []) _
           (mk_obs None true) 0 1 vh_call eq_refl eq_refl eq_refl).
Defined.


Lemma counters_bounded_by_steps_witness :
  exists uc,
    tq_run (cfg := small_cfg) fresh_comm witness_events = Some uc /\
    last_put_req (tq uc) <= -1 + 8.
Proof.
  eexists. split; [vm_compute; reflexivity|].
  match goal with |- last_put_req (tq ?u) <= _ =>
    assert (E : tq_run (cfg := small_cfg) fresh_comm witness_events = Some u)
      by (vm_compute; reflexivity);
    destruct (counters_bounded_by_steps (cfg := small_cfg) witness_events fresh_comm u E)
      as [[_ Hp] _]
  end.
  revert Hp. vm_compute. exact id.
Defined.
